(** * MD4 (src/MD4.py): a shallow embedding and its specification

    Python integers are unbounded, so every integer of the program is a [Z]
    and every mask [& 0xFFFFFFFF] is written out as [Z.land _ 0xFFFFFFFF].
    A [bytes] object is a [list byte]; a [str] is a [string].  The Python
    operations that can raise ([<<] and [>>] with a negative count, list
    indexing, [int.to_bytes], [struct.pack], [struct.unpack], tuple
    unpacking) are modelled in an error monad, so that "never fails" is a
    statement to be proved and not an artefact of the model. *)

From Stdlib Require Import String Ascii ZArith List Lia Bool.
From Stdlib Require Import Init.Byte Strings.Byte.
Import ListNotations.

Local Open Scope Z_scope.

(** ** Exceptions *)

Inductive exn : Set :=
| ValueError
| IndexError
| OverflowError
| StructError.

Inductive result (A : Type) : Type :=
| Ok (a : A)
| Raise (e : exn).

Arguments Ok {A} a.
Arguments Raise {A} e.

Definition bind {A B : Type} (m : result A) (k : A -> result B) : result B :=
  match m with
  | Ok a => k a
  | Raise e => Raise e
  end.

Declare Scope py_scope.
Delimit Scope py_scope with py.
Notation "x <- m ;; k" := (bind m (fun x => k))
  (at level 61, m at next level, right associativity) : py_scope.
Notation "' p <- m ;; k" := (bind m (fun x => match x with p => k end))
  (at level 61, p pattern, m at next level, right associativity) : py_scope.
Local Open Scope py_scope.

(** A computation returns, with a value satisfying [P]. *)
Definition returns {A : Type} (P : A -> Prop) (r : result A) : Prop :=
  exists a, r = Ok a /\ P a.

(** Whenever a computation returns, its value satisfies [P]. *)
Definition if_returns {A : Type} (P : A -> Prop) (r : result A) : Prop :=
  match r with
  | Ok a => P a
  | Raise _ => True
  end.

(** ** The Python primitives the program uses *)

Module Py.

(** [x << n] and [x >> n]: [ValueError] on a negative shift count.  A
    left shift is modelled for the counts whose result the interpreter can
    build; for a huge count and a non-zero [x] CPython raises
    [OverflowError] or [MemoryError] instead, which the model does not
    have.  Every count the program uses is between 0 and 32, and nothing
    below says which exception a count above 32 raises. *)
Definition lshift (x n : Z) : result Z :=
  if n <? 0 then Raise ValueError else Ok (Z.shiftl x n).

Definition rshift (x n : Z) : result Z :=
  if n <? 0 then Raise ValueError else Ok (Z.shiftr x n).

(** [xs[k]] for a literal index [k >= 0]: [IndexError] out of range. *)
Definition getitem {A : Type} (xs : list A) (k : nat) : result A :=
  match nth_error xs k with
  | Some x => Ok x
  | None => Raise IndexError
  end.

(** [b[start:stop]] for [0 <= start <= stop]: slicing never raises. *)
Definition slice {A : Type} (xs : list A) (start stop : nat) : list A :=
  firstn (stop - start) (skipn start xs).

(** [for i in range(n): acc = body(acc, i)]. *)
Definition for_range {S : Type} (n : nat) (body : S -> nat -> result S)
    (init : S) : result S :=
  fold_left (fun acc i => s <- acc ;; body s i) (seq 0 n) (Ok init).

(** A byte as an integer in [0, 256) and back. *)
Definition byte_to_Z (b : byte) : Z := Z.of_N (Byte.to_N b).

Definition byte_of_Z (z : Z) : byte :=
  match Byte.of_N (Z.to_N (z mod 256)) with
  | Some b => b
  | None => x00
  end.

(** Little-endian base-256 digits. *)
Fixpoint int_to_le_bytes (n : nat) (v : Z) : list byte :=
  match n with
  | O => []
  | S n' => byte_of_Z v :: int_to_le_bytes n' (v / 256)
  end.

Fixpoint int_from_le_bytes (bs : list byte) : Z :=
  match bs with
  | [] => 0
  | b :: bs' => byte_to_Z b + 256 * int_from_le_bytes bs'
  end.

(** [v.to_bytes(length=n, byteorder='little')]: [OverflowError] when [v]
    is negative or does not fit. *)
Definition to_bytes_little (v : Z) (n : nat) : result (list byte) :=
  if (v <? 0) || (256 ^ Z.of_nat n <=? v) then Raise OverflowError
  else Ok (int_to_le_bytes n v).

(** [struct.unpack("<16I", block)]: the buffer must hold exactly 64
    bytes; the result is 16 unsigned little-endian 32-bit words. *)
Fixpoint unpack_words (n : nat) (bs : list byte) : list Z :=
  match n with
  | O => []
  | S n' => int_from_le_bytes (firstn 4 bs) :: unpack_words n' (skipn 4 bs)
  end.

Definition struct_unpack_16I (block : list byte) : result (list Z) :=
  if Nat.eqb (length block) 64 then Ok (unpack_words 16 block)
  else Raise StructError.

(** [struct.pack("<4L", *vs)]: exactly four arguments, each in
    [0, 2^32); the result is their little-endian encodings in order. *)
Definition fits_u32 (v : Z) : bool := (0 <=? v) && (v <=? 0xFFFFFFFF).

Definition struct_pack_4L (vs : list Z) : result (list byte) :=
  if Nat.eqb (length vs) 4 && forallb fits_u32 vs
  then Ok (flat_map (int_to_le_bytes 4) vs)
  else Raise StructError.

(** [a, b, c, d = xs]: [ValueError] unless [xs] has four entries. *)
Definition unpack4 {A : Type} (xs : list A) : result (A * A * A * A) :=
  match xs with
  | [a; b; c; d] => Ok (a, b, c, d)
  | _ => Raise ValueError
  end.

(** [bytes.hex()]: two lowercase hexadecimal digits per byte, the high
    nibble first, bytes in order. *)
Definition hex_digit (n : nat) : ascii :=
  match String.get n "0123456789abcdef" with
  | Some c => c
  | None => "0"%char
  end.

Definition hex_of_byte (b : byte) : string :=
  let n := Byte.to_nat b in
  String (hex_digit (Nat.div n 16))
    (String (hex_digit (Nat.modulo n 16)) EmptyString).

Fixpoint hex (bs : list byte) : string :=
  match bs with
  | [] => EmptyString
  | b :: bs' => (hex_of_byte b ++ hex bs')%string
  end.

End Py.

(** ** The program *)

(** [pad_message], lines 5-18. *)
Definition pad_message (message : list byte) : list byte :=
  let padded_message := message ++ [x80] in
  let original_bit_length := Z.of_nat (length padded_message) * 8 in
  let padding_length := (448 - original_bit_length) mod 512 in
  padded_message ++ repeat x00 (Z.to_nat (padding_length / 8)).

(** [append_length], lines 21-31. *)
Definition append_length (message : list byte) (original_length : Z)
    : result (list byte) :=
  let original_bit_length := original_length * 8 in
  let original_bit_length :=
    Z.land original_bit_length (Z.shiftl 1 64 - 1) in
  tail <- Py.to_bytes_little original_bit_length 8 ;;
  Ok (message ++ tail).

(** [left_rotate], lines 34-40. *)
Definition left_rotate (X N : Z) : result Z :=
  hi <- Py.lshift X N ;;
  lo <- Py.rshift X (32 - N) ;;
  Ok (Z.land (Z.lor hi lo) 0xFFFFFFFF).

(** [f], [g], [h], lines 202-223. *)
Definition f (X Y Z : Z) : BinNums.Z := Z.lor (Z.land X Y) (Z.land (Z.lnot X) Z).

Definition g (X Y Z : Z) : BinNums.Z :=
  Z.lor (Z.lor (Z.land X Y) (Z.land X Z)) (Z.land Y Z).

Definition h (X Y Z : Z) : BinNums.Z := Z.lxor (Z.lxor X Y) Z.

(** [operation_round_1/2/3], lines 94-99, 130-135, 166-171.  In Python [+]
    binds tighter than [&], so the outer mask covers the whole sum. *)
Definition operation_round_1 (A B C D X S : Z) : result Z :=
  left_rotate
    (Z.land (A + (Z.land (f B C D) 0xFFFFFFFF + X)) 0xFFFFFFFF) S.

Definition operation_round_2 (A B C D X S : Z) : result Z :=
  left_rotate
    (Z.land (A + (Z.land (g B C D) 0xFFFFFFFF + X + 0x5A827999)) 0xFFFFFFFF) S.

Definition operation_round_3 (A B C D X S : Z) : result Z :=
  left_rotate
    (Z.land (A + (Z.land (h B C D) 0xFFFFFFFF + X + 0x6ED9EBA1)) 0xFFFFFFFF) S.

(** [round_1], lines 102-127. *)
Definition round_1 (A B C D : Z) (X : list Z) : result (Z * Z * Z * Z) :=
  x <- Py.getitem X 0 ;; A <- operation_round_1 A B C D x 3 ;;
  x <- Py.getitem X 1 ;; D <- operation_round_1 D A B C x 7 ;;
  x <- Py.getitem X 2 ;; C <- operation_round_1 C D A B x 11 ;;
  x <- Py.getitem X 3 ;; B <- operation_round_1 B C D A x 19 ;;

  x <- Py.getitem X 4 ;; A <- operation_round_1 A B C D x 3 ;;
  x <- Py.getitem X 5 ;; D <- operation_round_1 D A B C x 7 ;;
  x <- Py.getitem X 6 ;; C <- operation_round_1 C D A B x 11 ;;
  x <- Py.getitem X 7 ;; B <- operation_round_1 B C D A x 19 ;;

  x <- Py.getitem X 8 ;; A <- operation_round_1 A B C D x 3 ;;
  x <- Py.getitem X 9 ;; D <- operation_round_1 D A B C x 7 ;;
  x <- Py.getitem X 10 ;; C <- operation_round_1 C D A B x 11 ;;
  x <- Py.getitem X 11 ;; B <- operation_round_1 B C D A x 19 ;;

  x <- Py.getitem X 12 ;; A <- operation_round_1 A B C D x 3 ;;
  x <- Py.getitem X 13 ;; D <- operation_round_1 D A B C x 7 ;;
  x <- Py.getitem X 14 ;; C <- operation_round_1 C D A B x 11 ;;
  x <- Py.getitem X 15 ;; B <- operation_round_1 B C D A x 19 ;;

  Ok (A, B, C, D).

(** [round_2], lines 138-163. *)
Definition round_2 (A B C D : Z) (X : list Z) : result (Z * Z * Z * Z) :=
  x <- Py.getitem X 0 ;; A <- operation_round_2 A B C D x 3 ;;
  x <- Py.getitem X 4 ;; D <- operation_round_2 D A B C x 5 ;;
  x <- Py.getitem X 8 ;; C <- operation_round_2 C D A B x 9 ;;
  x <- Py.getitem X 12 ;; B <- operation_round_2 B C D A x 13 ;;

  x <- Py.getitem X 1 ;; A <- operation_round_2 A B C D x 3 ;;
  x <- Py.getitem X 5 ;; D <- operation_round_2 D A B C x 5 ;;
  x <- Py.getitem X 9 ;; C <- operation_round_2 C D A B x 9 ;;
  x <- Py.getitem X 13 ;; B <- operation_round_2 B C D A x 13 ;;

  x <- Py.getitem X 2 ;; A <- operation_round_2 A B C D x 3 ;;
  x <- Py.getitem X 6 ;; D <- operation_round_2 D A B C x 5 ;;
  x <- Py.getitem X 10 ;; C <- operation_round_2 C D A B x 9 ;;
  x <- Py.getitem X 14 ;; B <- operation_round_2 B C D A x 13 ;;

  x <- Py.getitem X 3 ;; A <- operation_round_2 A B C D x 3 ;;
  x <- Py.getitem X 7 ;; D <- operation_round_2 D A B C x 5 ;;
  x <- Py.getitem X 11 ;; C <- operation_round_2 C D A B x 9 ;;
  x <- Py.getitem X 15 ;; B <- operation_round_2 B C D A x 13 ;;

  Ok (A, B, C, D).

(** [round_3], lines 174-199. *)
Definition round_3 (A B C D : Z) (X : list Z) : result (Z * Z * Z * Z) :=
  x <- Py.getitem X 0 ;; A <- operation_round_3 A B C D x 3 ;;
  x <- Py.getitem X 8 ;; D <- operation_round_3 D A B C x 9 ;;
  x <- Py.getitem X 4 ;; C <- operation_round_3 C D A B x 11 ;;
  x <- Py.getitem X 12 ;; B <- operation_round_3 B C D A x 15 ;;

  x <- Py.getitem X 2 ;; A <- operation_round_3 A B C D x 3 ;;
  x <- Py.getitem X 10 ;; D <- operation_round_3 D A B C x 9 ;;
  x <- Py.getitem X 6 ;; C <- operation_round_3 C D A B x 11 ;;
  x <- Py.getitem X 14 ;; B <- operation_round_3 B C D A x 15 ;;

  x <- Py.getitem X 1 ;; A <- operation_round_3 A B C D x 3 ;;
  x <- Py.getitem X 9 ;; D <- operation_round_3 D A B C x 9 ;;
  x <- Py.getitem X 5 ;; C <- operation_round_3 C D A B x 11 ;;
  x <- Py.getitem X 13 ;; B <- operation_round_3 B C D A x 15 ;;

  x <- Py.getitem X 3 ;; A <- operation_round_3 A B C D x 3 ;;
  x <- Py.getitem X 11 ;; D <- operation_round_3 D A B C x 9 ;;
  x <- Py.getitem X 7 ;; C <- operation_round_3 C D A B x 11 ;;
  x <- Py.getitem X 15 ;; B <- operation_round_3 B C D A x 15 ;;

  Ok (A, B, C, D).

(** [md4], lines 43-83: the body of the loop over blocks, then the driver. *)
Definition block_size_words : nat := 16.

Definition md4_loop_body (message : list byte) (buffers : list Z) (i : nat)
    : result (list Z) :=
  let block_start := (i * 4 * block_size_words)%nat in
  let block_end := ((i + 1) * 4 * block_size_words)%nat in
  let block := Py.slice message block_start block_end in
  X <- Py.struct_unpack_16I block ;;
  '(A, B, C, D) <- Py.unpack4 buffers ;;
  '(A, B, C, D) <- round_1 A B C D X ;;
  '(A, B, C, D) <- round_2 A B C D X ;;
  '(A, B, C, D) <- round_3 A B C D X ;;
  Ok (map (fun '(v, n) => Z.land (v + n) 0xFFFFFFFF)
        (combine [A; B; C; D] buffers)).

Definition md4 (message : list byte) : result (list byte) :=
  let initial_message_byte_length := Z.of_nat (length message) in
  message <-
    append_length (pad_message message) initial_message_byte_length ;;
  let buffers := [0x67452301; 0xEFCDAB89; 0x98BADCFE; 0x10325476] in
  let num_blocks := Nat.div (length message) (4 * block_size_words) in
  buffers <- Py.for_range num_blocks (md4_loop_body message) buffers ;;
  Py.struct_pack_4L buffers.

(** [md4_hex_digest], lines 86-91. *)
Definition md4_hex_digest (message : list byte) : result string :=
  digest <- md4 message ;;
  Ok (Py.hex digest).

Definition ascii_bytes (s : string) : list byte := list_byte_of_string s.

(** ** The specification's reading of the algorithm

    Everything in [Spec] follows the words of the specification: pure
    functions on 32-bit words, the three step tables, the padder, the fold
    over 64-byte blocks.  The theorems below compare it with the program. *)

Module Spec.

Definition state : Type := Z * Z * Z * Z.

Definition u32 (v : Z) : Prop := 0 <= v < 2 ^ 32.

Definition state_u32 (st : state) : Prop :=
  let '(a, b, c, d) := st in u32 a /\ u32 b /\ u32 c /\ u32 d.

(** 32-bit complement, addition modulo 2^32. *)
Definition not32 (x : Z) : Z := 2 ^ 32 - 1 - x.

Definition add32 (x y : Z) : Z := (x + y) mod 2 ^ 32.

(** Section 4.3: the three mixing functions and the rotation. *)
Definition f (x y z : Z) : BinNums.Z :=
  Z.lor (Z.land x y) (Z.land (not32 x) z).

Definition g (x y z : Z) : BinNums.Z :=
  Z.lor (Z.lor (Z.land x y) (Z.land x z)) (Z.land y z).

Definition h (x y z : Z) : BinNums.Z := Z.lxor (Z.lxor x y) z.

Definition rotl (x n : Z) : Z :=
  Z.lor (Z.shiftl x n) (Z.shiftr x (32 - n)) mod 2 ^ 32.

(** Bit [i] of a circular left shift by [n] is bit [i - n] (mod 32). *)
Definition is_rotation (x n r : Z) : Prop :=
  forall i, 0 <= i < 32 -> Z.testbit r i = Z.testbit x ((i - n) mod 32).

(** The elementary steps, one total sum reduced modulo 2^32 ... *)
Definition step1 (a b c d x s : Z) : Z :=
  rotl ((a + f b c d + x) mod 2 ^ 32) s.

Definition step2 (a b c d x s : Z) : Z :=
  rotl ((a + g b c d + x + 0x5A827999) mod 2 ^ 32) s.

Definition step3 (a b c d x s : Z) : Z :=
  rotl ((a + h b c d + x + 0x6ED9EBA1) mod 2 ^ 32) s.

(** ... and the same with every addition wrapping on its own. *)
Definition step1_wrapping (a b c d x s : Z) : Z :=
  rotl (add32 (add32 a (f b c d)) x) s.

Definition step2_wrapping (a b c d x s : Z) : Z :=
  rotl (add32 (add32 (add32 a (g b c d)) x) 0x5A827999) s.

Definition step3_wrapping (a b c d x s : Z) : Z :=
  rotl (add32 (add32 (add32 a (h b c d)) x) 0x6ED9EBA1) s.

(** Section 4.4: the schedule.  Word order and rotate amounts by round. *)
Definition word_order_1 : list nat :=
  [0; 1; 2; 3; 4; 5; 6; 7; 8; 9; 10; 11; 12; 13; 14; 15]%nat.
Definition word_order_2 : list nat :=
  [0; 4; 8; 12; 1; 5; 9; 13; 2; 6; 10; 14; 3; 7; 11; 15]%nat.
Definition word_order_3 : list nat :=
  [0; 8; 4; 12; 2; 10; 6; 14; 1; 9; 5; 13; 3; 11; 7; 15]%nat.

Definition rotate_amounts_1 : list Z := [3; 7; 11; 19].
Definition rotate_amounts_2 : list Z := [3; 5; 9; 13].
Definition rotate_amounts_3 : list Z := [3; 9; 11; 15].

(** Step [i] reads word [order[i]] and rotates by [amounts[i mod 4]]. *)
Definition word_index (order : list nat) (i : nat) : nat :=
  nth i order 0%nat.

Definition rotate_amount (amounts : list Z) (i : nat) : Z :=
  nth (i mod 4) amounts 0.

(** Step [i] recomputes one variable from the current values of the
    other three; the recomputed variable cycles a, d, c, b. *)
Definition turn (op : Z -> Z -> Z -> Z -> Z -> Z -> Z)
    (st : state) (i : nat) (x s : Z) : state :=
  let '(a, b, c, d) := st in
  match (i mod 4)%nat with
  | 0%nat => (op a b c d x s, b, c, d)
  | 1%nat => (a, b, c, op d a b c x s)
  | 2%nat => (a, b, op c d a b x s, d)
  | _ => (a, op b c d a x s, c, d)
  end.

Definition run_steps (op : Z -> Z -> Z -> Z -> Z -> Z -> Z)
    (order : list nat) (amounts : list Z) (X : list Z)
    (steps : list nat) (st : state) : state :=
  fold_left
    (fun st i =>
       turn op st i (nth (word_index order i) X 0) (rotate_amount amounts i))
    steps st.

Definition run_round op order amounts (st : state) (X : list Z) : state :=
  run_steps op order amounts X (seq 0 16) st.

Definition round1 := run_round step1 word_order_1 rotate_amounts_1.
Definition round2 := run_round step2 word_order_2 rotate_amounts_2.
Definition round3 := run_round step3 word_order_3 rotate_amounts_3.

(** The state after each of the first [k] steps, [k = 0..16]. *)
Definition round_states op order amounts (st : state) (X : list Z)
    : list state :=
  map (fun k => run_steps op order amounts X (seq 0 k) st) (seq 0 17).

(** Section 4.1: the padder. *)
Definition zero_count (len : nat) : nat :=
  Z.to_nat ((56 - (Z.of_nat len + 1)) mod 64).

Definition length_field (len : nat) : list byte :=
  Py.int_to_le_bytes 8 ((8 * Z.of_nat len) mod 2 ^ 64).

Definition pad (m : list byte) : list byte :=
  m ++ [x80] ++ repeat x00 (zero_count (length m))
    ++ length_field (length m).

(** Section 4.2: words, least-significant byte first. *)
Definition word_at (block : list byte) (j : nat) : Z :=
  Py.int_from_le_bytes (firstn 4 (skipn (4 * j) block)).

Definition decode_words (block : list byte) : list Z :=
  map (word_at block) (seq 0 16).

Definition serialize (st : state) : list byte :=
  let '(a, b, c, d) := st in
  Py.int_to_le_bytes 4 a ++ Py.int_to_le_bytes 4 b
    ++ Py.int_to_le_bytes 4 c ++ Py.int_to_le_bytes 4 d.

(** Section 4.5: the driver, a fold over the 64-byte blocks. *)
Definition block_at (padded : list byte) (i : nat) : list byte :=
  firstn 64 (skipn (64 * i) padded).

Definition blocks (padded : list byte) : list (list byte) :=
  map (block_at padded) (seq 0 (length padded / 64)).

Definition init_state : state :=
  (0x67452301, 0xEFCDAB89, 0x98BADCFE, 0x10325476).

(** The state as the program keeps it, the list [buffers]. *)
Definition buffers_of (st : state) : list Z :=
  let '(a, b, c, d) := st in [a; b; c; d].

Definition add_state (s t : state) : state :=
  let '(a, b, c, d) := s in
  let '(a', b', c', d') := t in
  (add32 a a', add32 b b', add32 c c', add32 d d').

Definition compress (entering : state) (block : list byte) : state :=
  let X := decode_words block in
  let r1 := round1 entering X in
  let r2 := round2 r1 X in
  let r3 := round3 r2 X in
  add_state entering r3.

Definition final_state (m : list byte) : state :=
  fold_left compress (blocks (pad m)) init_state.

Definition digest (m : list byte) : list byte := serialize (final_state m).

(** Section 6: the hexadecimal form, two lowercase digits per byte, byte
    [i] at characters [2i] (high nibble) and [2i+1] (low nibble). *)
Definition is_lower_hex (c : ascii) : bool :=
  existsb (Ascii.eqb c) (list_ascii_of_string "0123456789abcdef").

Definition hex_encodes (d : list byte) (s : string) : Prop :=
  String.length s = (2 * length d)%nat
  /\ forallb is_lower_hex (list_ascii_of_string s) = true
  /\ forall i b, nth_error d i = Some b ->
       String.get (2 * i) s = Some (Py.hex_digit (Byte.to_nat b / 16))
       /\ String.get (2 * i + 1) s
          = Some (Py.hex_digit (Byte.to_nat b mod 16)).

End Spec.

(** ** The schedule run on the program's own step functions

    [Sched.run] drives a round from a step table with the program's
    fallible operations, so that it can be compared with the unrolled
    [round_1], [round_2], [round_3] on every input, failing ones too. *)

Module Sched.

Definition turn (op : Z -> Z -> Z -> Z -> Z -> Z -> result Z)
    (X : list Z) (st : Spec.state) (i k : nat) (s : Z)
    : result Spec.state :=
  let '(a, b, c, d) := st in
  x <- Py.getitem X k ;;
  match (i mod 4)%nat with
  | 0%nat => v <- op a b c d x s ;; Ok (v, b, c, d)
  | 1%nat => v <- op d a b c x s ;; Ok (a, b, c, v)
  | 2%nat => v <- op c d a b x s ;; Ok (a, b, v, d)
  | _ => v <- op b c d a x s ;; Ok (a, v, c, d)
  end.

Fixpoint run_steps (op : Z -> Z -> Z -> Z -> Z -> Z -> result Z)
    (order : list nat) (amounts : list Z) (X : list Z)
    (steps : list nat) (st : Spec.state) : result Spec.state :=
  match steps with
  | [] => Ok st
  | i :: rest =>
      st' <- turn op X st i (Spec.word_index order i)
               (Spec.rotate_amount amounts i) ;;
      run_steps op order amounts X rest st'
  end.

Definition run op order amounts (st : Spec.state) (X : list Z)
    : result Spec.state :=
  run_steps op order amounts X (seq 0 16) st.

(** What (A, B, C, D) is bound to after the first [k] steps, [k = 0..16]. *)
Definition prefix_states op order amounts (st : Spec.state) (X : list Z)
    : list (result Spec.state) :=
  map (fun k => run_steps op order amounts X (seq 0 k) st) (seq 0 17).

(** A round of the program applied to a state. *)
Definition on_state (round : Z -> Z -> Z -> Z -> list Z -> result Spec.state)
    (st : Spec.state) (X : list Z) : result Spec.state :=
  let '(a, b, c, d) := st in round a b c d X.

End Sched.

(** ** Bit-level facts about 32-bit words *)

Section Words.

Lemma mask32_is_mod x : Z.land x 0xFFFFFFFF = x mod 2 ^ 32.
Proof. change 0xFFFFFFFF with (Z.ones 32). apply Z.land_ones. lia. Qed.

Lemma u32_mod x : Spec.u32 (x mod 2 ^ 32).
Proof. unfold Spec.u32. apply Z.mod_pos_bound. lia. Qed.

Lemma u32_mod_id x : Spec.u32 x -> x mod 2 ^ 32 = x.
Proof. unfold Spec.u32. intros H. apply Z.mod_small. exact H. Qed.

Lemma u32_high_bits x i : Spec.u32 x -> 32 <= i -> Z.testbit x i = false.
Proof.
  intros Hx Hi. rewrite <- (u32_mod_id x Hx).
  apply Z.mod_pow2_bits_high. lia.
Qed.

(** A value whose bits from position 32 on are all clear is a word. *)
Lemma u32_of_high_bits x :
  (forall i, 32 <= i -> Z.testbit x i = false) -> Spec.u32 x.
Proof.
  intros H. replace x with (x mod 2 ^ 32); [apply u32_mod|].
  apply Z.bits_inj'. intros i Hi.
  destruct (Z.lt_ge_cases i 32) as [Hlt | Hge].
  - apply Z.mod_pow2_bits_low. lia.
  - rewrite Z.mod_pow2_bits_high by lia. symmetry. apply H. exact Hge.
Qed.

Lemma not32_bits x i :
  Spec.u32 x -> 0 <= i ->
  Z.testbit (Spec.not32 x) i = if i <? 32 then negb (Z.testbit x i) else false.
Proof.
  intros Hx Hi.
  assert (E : Spec.not32 x = Z.lnot x mod 2 ^ 32).
  { unfold Spec.not32, Z.lnot, Spec.u32 in *.
    apply (Z.mod_unique _ _ (-1)); lia. }
  rewrite E. destruct (Z.ltb_spec i 32).
  - rewrite Z.mod_pow2_bits_low by lia. apply Z.lnot_spec. exact Hi.
  - apply Z.mod_pow2_bits_high. lia.
Qed.

Lemma not32_u32 x : Spec.u32 x -> Spec.u32 (Spec.not32 x).
Proof. unfold Spec.not32, Spec.u32. lia. Qed.

Lemma land_u32 x y : Spec.u32 y -> Spec.u32 (Z.land x y).
Proof.
  intros Hy. apply u32_of_high_bits. intros i Hi.
  rewrite Z.land_spec, (u32_high_bits y) by assumption.
  apply andb_false_r.
Qed.

Lemma lor_u32 x y : Spec.u32 x -> Spec.u32 y -> Spec.u32 (Z.lor x y).
Proof.
  intros Hx Hy. apply u32_of_high_bits. intros i Hi.
  rewrite Z.lor_spec, (u32_high_bits x), (u32_high_bits y) by assumption.
  reflexivity.
Qed.

Lemma lxor_u32 x y : Spec.u32 x -> Spec.u32 y -> Spec.u32 (Z.lxor x y).
Proof.
  intros Hx Hy. apply u32_of_high_bits. intros i Hi.
  rewrite Z.lxor_spec, (u32_high_bits x), (u32_high_bits y) by assumption.
  reflexivity.
Qed.

(** The program's [f] uses the unbounded complement [~X]; on words it is
    the specification's [f], and it is a word without any mask. *)
Lemma f_is_spec x y z : Spec.u32 x -> Spec.u32 y -> Spec.u32 z -> f x y z = Spec.f x y z.
Proof.
  intros Hx Hy Hz. unfold f, Spec.f. apply Z.bits_inj'. intros i Hi.
  rewrite !Z.lor_spec, !Z.land_spec, Z.lnot_spec, not32_bits by assumption.
  destruct (Z.ltb_spec i 32) as [Hlt | Hge]; [reflexivity|].
  rewrite (u32_high_bits z) by assumption.
  now rewrite !andb_false_r.
Qed.

Lemma spec_f_u32 x y z : Spec.u32 x -> Spec.u32 y -> Spec.u32 z -> Spec.u32 (Spec.f x y z).
Proof.
  intros Hx Hy Hz. unfold Spec.f.
  apply lor_u32; apply land_u32; assumption.
Qed.

Lemma spec_g_u32 x y z : Spec.u32 x -> Spec.u32 y -> Spec.u32 z -> Spec.u32 (Spec.g x y z).
Proof.
  intros Hx Hy Hz. unfold Spec.g.
  repeat apply lor_u32; apply land_u32; assumption.
Qed.

Lemma spec_h_u32 x y z : Spec.u32 x -> Spec.u32 y -> Spec.u32 z -> Spec.u32 (Spec.h x y z).
Proof.
  intros Hx Hy Hz. unfold Spec.h. repeat apply lxor_u32; assumption.
Qed.

End Words.

(** ** The unrolled rounds against the step tables *)

Ltac run_schedule op X :=
  repeat match goal with
    | |- context [Py.getitem X ?k] =>
        destruct (Py.getitem X k); cbn; [|reflexivity]
    | |- context [op ?a ?b ?c ?d ?x ?s] =>
        destruct (op a b c d x s); cbn; [|reflexivity]
    end;
  reflexivity.

Lemma round_1_schedule A B C D X :
  round_1 A B C D X
  = Sched.run operation_round_1 Spec.word_order_1 Spec.rotate_amounts_1
      (A, B, C, D) X.
Proof.
  unfold round_1, Sched.run. generalize operation_round_1 as op. intros op.
  cbn. run_schedule op X.
Qed.

Lemma round_2_schedule A B C D X :
  round_2 A B C D X
  = Sched.run operation_round_2 Spec.word_order_2 Spec.rotate_amounts_2
      (A, B, C, D) X.
Proof.
  unfold round_2, Sched.run. generalize operation_round_2 as op. intros op.
  cbn. run_schedule op X.
Qed.

Lemma round_3_schedule A B C D X :
  round_3 A B C D X
  = Sched.run operation_round_3 Spec.word_order_3 Spec.rotate_amounts_3
      (A, B, C, D) X.
Proof.
  unfold round_3, Sched.run. generalize operation_round_3 as op. intros op.
  cbn. run_schedule op X.
Qed.

(** ** Rotation and the elementary steps *)

Lemma left_rotate_ok x n :
  0 <= n <= 32 -> left_rotate x n = Ok (Spec.rotl x n).
Proof.
  intros Hn. unfold left_rotate, Py.lshift, Py.rshift, Spec.rotl.
  destruct (Z.ltb_spec n 0); [lia|].
  destruct (Z.ltb_spec (32 - n) 0); [lia|].
  cbn [bind]. now rewrite mask32_is_mod.
Qed.

Lemma left_rotate_raises x n :
  n < 0 \/ 32 < n -> left_rotate x n = Raise ValueError.
Proof.
  intros Hn. unfold left_rotate, Py.lshift, Py.rshift.
  destruct (Z.ltb_spec n 0); [reflexivity|].
  destruct (Z.ltb_spec (32 - n) 0); [reflexivity|lia].
Qed.

Lemma rotl_u32 x n : Spec.u32 (Spec.rotl x n).
Proof. apply u32_mod. Qed.

Lemma rotl_is_rotation x n :
  Spec.u32 x -> 1 <= n <= 31 -> Spec.is_rotation x n (Spec.rotl x n).
Proof.
  intros Hx Hn i Hi. unfold Spec.rotl.
  rewrite Z.mod_pow2_bits_low, Z.lor_spec, Z.shiftl_spec, Z.shiftr_spec by lia.
  destruct (Z.lt_ge_cases i n) as [Hlt | Hge].
  - rewrite (Z.testbit_neg_r x (i - n)) by lia. cbn [orb]. f_equal.
    apply (Z.mod_unique _ _ (-1)); lia.
  - rewrite (u32_high_bits x (i + (32 - n))) by (assumption || lia).
    rewrite orb_false_r. f_equal. symmetry. apply Z.mod_small. lia.
Qed.

Lemma step1_wraps a b c d x s :
  Spec.step1 a b c d x s = Spec.step1_wrapping a b c d x s.
Proof.
  unfold Spec.step1, Spec.step1_wrapping, Spec.add32.
  now rewrite Z.add_mod_idemp_l by lia.
Qed.

Lemma step2_wraps a b c d x s :
  Spec.step2 a b c d x s = Spec.step2_wrapping a b c d x s.
Proof.
  unfold Spec.step2, Spec.step2_wrapping, Spec.add32.
  rewrite (Z.add_mod_idemp_l (a + Spec.g b c d) x) by lia.
  now rewrite Z.add_mod_idemp_l by lia.
Qed.

Lemma step3_wraps a b c d x s :
  Spec.step3 a b c d x s = Spec.step3_wrapping a b c d x s.
Proof.
  unfold Spec.step3, Spec.step3_wrapping, Spec.add32.
  rewrite (Z.add_mod_idemp_l (a + Spec.h b c d) x) by lia.
  now rewrite Z.add_mod_idemp_l by lia.
Qed.

Lemma operation_round_1_ok a b c d x s :
  Spec.u32 b -> Spec.u32 c -> Spec.u32 d -> 0 <= s <= 32 ->
  operation_round_1 a b c d x s = Ok (Spec.step1 a b c d x s).
Proof.
  intros Hb Hc Hd Hs. unfold operation_round_1, Spec.step1.
  rewrite !mask32_is_mod, left_rotate_ok by exact Hs.
  rewrite f_is_spec, (u32_mod_id (Spec.f b c d)), Z.add_assoc
    by auto using spec_f_u32.
  reflexivity.
Qed.

Lemma operation_round_2_ok a b c d x s :
  Spec.u32 b -> Spec.u32 c -> Spec.u32 d -> 0 <= s <= 32 ->
  operation_round_2 a b c d x s = Ok (Spec.step2 a b c d x s).
Proof.
  intros Hb Hc Hd Hs. unfold operation_round_2, Spec.step2.
  rewrite !mask32_is_mod, left_rotate_ok by exact Hs.
  change (g b c d) with (Spec.g b c d).
  rewrite (u32_mod_id (Spec.g b c d)), !Z.add_assoc by auto using spec_g_u32.
  reflexivity.
Qed.

Lemma operation_round_3_ok a b c d x s :
  Spec.u32 b -> Spec.u32 c -> Spec.u32 d -> 0 <= s <= 32 ->
  operation_round_3 a b c d x s = Ok (Spec.step3 a b c d x s).
Proof.
  intros Hb Hc Hd Hs. unfold operation_round_3, Spec.step3.
  rewrite !mask32_is_mod, left_rotate_ok by exact Hs.
  change (h b c d) with (Spec.h b c d).
  rewrite (u32_mod_id (Spec.h b c d)), !Z.add_assoc by auto using spec_h_u32.
  reflexivity.
Qed.

(** Whatever integers a step is given, its result is a word. *)
Lemma operation_round_1_u32 a b c d x s r :
  operation_round_1 a b c d x s = Ok r -> Spec.u32 r.
Proof.
  unfold operation_round_1. intros H.
  destruct (Z.lt_ge_cases s 0); [rewrite left_rotate_raises in H by lia; discriminate|].
  destruct (Z.lt_ge_cases 32 s); [rewrite left_rotate_raises in H by lia; discriminate|].
  rewrite left_rotate_ok in H by lia. injection H as <-. apply rotl_u32.
Qed.

Lemma operation_round_2_u32 a b c d x s r :
  operation_round_2 a b c d x s = Ok r -> Spec.u32 r.
Proof.
  unfold operation_round_2. intros H.
  destruct (Z.lt_ge_cases s 0); [rewrite left_rotate_raises in H by lia; discriminate|].
  destruct (Z.lt_ge_cases 32 s); [rewrite left_rotate_raises in H by lia; discriminate|].
  rewrite left_rotate_ok in H by lia. injection H as <-. apply rotl_u32.
Qed.

Lemma operation_round_3_u32 a b c d x s r :
  operation_round_3 a b c d x s = Ok r -> Spec.u32 r.
Proof.
  unfold operation_round_3. intros H.
  destruct (Z.lt_ge_cases s 0); [rewrite left_rotate_raises in H by lia; discriminate|].
  destruct (Z.lt_ge_cases 32 s); [rewrite left_rotate_raises in H by lia; discriminate|].
  rewrite left_rotate_ok in H by lia. injection H as <-. apply rotl_u32.
Qed.

(** ** A round run from its table, fallible against pure *)

Section Rounds.

Variable op : Z -> Z -> Z -> Z -> Z -> Z -> result Z.
Variable op_spec : Z -> Z -> Z -> Z -> Z -> Z -> Z.
Variable order : list nat.
Variable amounts : list Z.
Variable X : list Z.

Hypothesis op_ok : forall a b c d x i,
  Spec.u32 b -> Spec.u32 c -> Spec.u32 d ->
  op a b c d x (Spec.rotate_amount amounts i)
  = Ok (op_spec a b c d x (Spec.rotate_amount amounts i)).

Hypothesis op_spec_u32 : forall a b c d x s, Spec.u32 (op_spec a b c d x s).

Lemma turn_u32 st i x s :
  Spec.state_u32 st -> Spec.state_u32 (Spec.turn op_spec st i x s).
Proof.
  destruct st as [[[a b] c] d]. intros (Ha & Hb & Hc & Hd).
  unfold Spec.turn. destruct (i mod 4)%nat as [|[|[|?]]]; cbn;
    auto using op_spec_u32.
Qed.

Lemma run_steps_u32 steps : forall st,
  Spec.state_u32 st ->
  Spec.state_u32 (Spec.run_steps op_spec order amounts X steps st).
Proof.
  unfold Spec.run_steps.
  induction steps as [|i steps IH]; intros st Hst; cbn [fold_left].
  - exact Hst.
  - apply IH, turn_u32, Hst.
Qed.

Lemma sched_turn_ok st i :
  Spec.state_u32 st ->
  (Spec.word_index order i < length X)%nat ->
  Sched.turn op X st i (Spec.word_index order i)
    (Spec.rotate_amount amounts i)
  = Ok (Spec.turn op_spec st i (nth (Spec.word_index order i) X 0)
          (Spec.rotate_amount amounts i)).
Proof.
  destruct st as [[[a b] c] d]. intros (Ha & Hb & Hc & Hd) Hk.
  unfold Sched.turn, Spec.turn, Py.getitem.
  destruct (nth_error X (Spec.word_index order i)) as [x|] eqn:E.
  - rewrite (nth_error_nth _ _ 0 E). cbn [bind].
    destruct (i mod 4)%nat as [|[|[|?]]]; rewrite op_ok by assumption;
      reflexivity.
  - apply nth_error_None in E. lia.
Qed.

Lemma sched_run_steps_ok steps : forall st,
  Spec.state_u32 st ->
  (forall i, In i steps -> (Spec.word_index order i < length X)%nat) ->
  Sched.run_steps op order amounts X steps st
  = Ok (Spec.run_steps op_spec order amounts X steps st).
Proof.
  induction steps as [|i steps IH]; intros st Hst Hidx.
  - reflexivity.
  - cbn [Sched.run_steps]. rewrite sched_turn_ok by (auto with datatypes).
    cbn [bind]. rewrite IH.
    + reflexivity.
    + apply turn_u32, Hst.
    + intros j Hj. apply Hidx. now right.
Qed.

Lemma round_states_u32 st :
  Spec.state_u32 st ->
  Forall Spec.state_u32 (Spec.round_states op_spec order amounts st X).
Proof.
  intros Hst. unfold Spec.round_states. apply Forall_forall.
  intros s Hs. apply in_map_iff in Hs. destruct Hs as (k & <- & _).
  apply run_steps_u32, Hst.
Qed.

Lemma sched_prefix_states_ok st :
  Spec.state_u32 st ->
  (forall i, (Spec.word_index order i < length X)%nat) ->
  Sched.prefix_states op order amounts st X
  = map Ok (Spec.round_states op_spec order amounts st X).
Proof.
  intros Hst Hidx. unfold Sched.prefix_states, Spec.round_states.
  rewrite map_map. apply map_ext. intros k.
  apply sched_run_steps_ok; auto.
Qed.

End Rounds.

Lemma rotate_amount_bounds amounts i :
  Forall (fun s => 0 <= s <= 32) amounts ->
  0 <= Spec.rotate_amount amounts i <= 32.
Proof.
  intros H. unfold Spec.rotate_amount.
  destruct (nth_in_or_default (i mod 4) amounts 0) as [Hin | ->]; [|lia].
  rewrite Forall_forall in H. apply H, Hin.
Qed.

Lemma rotate_amounts_in_range :
  Forall (fun s => 0 <= s <= 32) Spec.rotate_amounts_1
  /\ Forall (fun s => 0 <= s <= 32) Spec.rotate_amounts_2
  /\ Forall (fun s => 0 <= s <= 32) Spec.rotate_amounts_3.
Proof. repeat split; repeat constructor; lia. Qed.

Lemma word_index_in_range order i :
  Forall (fun k => (k < 16)%nat) order -> (Spec.word_index order i < 16)%nat.
Proof.
  intros H. unfold Spec.word_index.
  destruct (nth_in_or_default i order 0%nat) as [Hin | ->]; [|lia].
  rewrite Forall_forall in H. apply H, Hin.
Qed.

Lemma word_orders_in_range :
  Forall (fun k => (k < 16)%nat) Spec.word_order_1
  /\ Forall (fun k => (k < 16)%nat) Spec.word_order_2
  /\ Forall (fun k => (k < 16)%nat) Spec.word_order_3.
Proof. repeat split; repeat constructor. Qed.

(** On a state of words and a block of 16 words each round of the program
    succeeds, with the result the table-driven round and a state of words. *)
Lemma round_1_ok A B C D X :
  Spec.state_u32 (A, B, C, D) -> length X = 16%nat ->
  round_1 A B C D X = Ok (Spec.round1 (A, B, C, D) X)
  /\ Spec.state_u32 (Spec.round1 (A, B, C, D) X).
Proof.
  intros Hst HX. split.
  - rewrite round_1_schedule. unfold Sched.run, Spec.round1, Spec.run_round.
    apply sched_run_steps_ok.
    + intros a b c d x i Hb Hc Hd. apply operation_round_1_ok; trivial.
      apply rotate_amount_bounds, rotate_amounts_in_range.
    + intros. apply rotl_u32.
    + exact Hst.
    + intros i _. rewrite HX. apply word_index_in_range, word_orders_in_range.
  - apply run_steps_u32; [intros; apply rotl_u32 | exact Hst].
Qed.

Lemma round_2_ok A B C D X :
  Spec.state_u32 (A, B, C, D) -> length X = 16%nat ->
  round_2 A B C D X = Ok (Spec.round2 (A, B, C, D) X)
  /\ Spec.state_u32 (Spec.round2 (A, B, C, D) X).
Proof.
  intros Hst HX. split.
  - rewrite round_2_schedule. unfold Sched.run, Spec.round2, Spec.run_round.
    apply sched_run_steps_ok.
    + intros a b c d x i Hb Hc Hd. apply operation_round_2_ok; trivial.
      apply rotate_amount_bounds, rotate_amounts_in_range.
    + intros. apply rotl_u32.
    + exact Hst.
    + intros i _. rewrite HX. apply word_index_in_range, word_orders_in_range.
  - apply run_steps_u32; [intros; apply rotl_u32 | exact Hst].
Qed.

Lemma round_3_ok A B C D X :
  Spec.state_u32 (A, B, C, D) -> length X = 16%nat ->
  round_3 A B C D X = Ok (Spec.round3 (A, B, C, D) X)
  /\ Spec.state_u32 (Spec.round3 (A, B, C, D) X).
Proof.
  intros Hst HX. split.
  - rewrite round_3_schedule. unfold Sched.run, Spec.round3, Spec.run_round.
    apply sched_run_steps_ok.
    + intros a b c d x i Hb Hc Hd. apply operation_round_3_ok; trivial.
      apply rotate_amount_bounds, rotate_amounts_in_range.
    + intros. apply rotl_u32.
    + exact Hst.
    + intros i _. rewrite HX. apply word_index_in_range, word_orders_in_range.
  - apply run_steps_u32; [intros; apply rotl_u32 | exact Hst].
Qed.

(** ** Bytes, words and the padder *)

Lemma byte_to_Z_range b : 0 <= Py.byte_to_Z b < 256.
Proof.
  unfold Py.byte_to_Z. pose proof (Byte.to_N_bounded b). lia.
Qed.

Lemma length_int_to_le_bytes n : forall v,
  length (Py.int_to_le_bytes n v) = n.
Proof.
  induction n as [|n IH]; intros v; cbn [Py.int_to_le_bytes length].
  - reflexivity.
  - now rewrite IH.
Qed.

Lemma int_from_le_bytes_range bs :
  0 <= Py.int_from_le_bytes bs < 256 ^ Z.of_nat (length bs).
Proof.
  induction bs as [|b bs IH]; cbn [Py.int_from_le_bytes length].
  - cbn. lia.
  - rewrite Nat2Z.inj_succ, Z.pow_succ_r by lia.
    pose proof (byte_to_Z_range b). lia.
Qed.

Lemma word_at_u32 block j : Spec.u32 (Spec.word_at block j).
Proof.
  unfold Spec.word_at, Spec.u32.
  pose proof (int_from_le_bytes_range (firstn 4 (skipn (4 * j) block))) as H.
  pose proof (firstn_le_length 4 (skipn (4 * j) block)) as Hl.
  assert (256 ^ Z.of_nat (length (firstn 4 (skipn (4 * j) block))) <= 256 ^ 4)
    by (apply Z.pow_le_mono_r; lia).
  change (256 ^ 4) with (2 ^ 32) in *. lia.
Qed.

Lemma decode_words_u32 block : Forall Spec.u32 (Spec.decode_words block).
Proof.
  unfold Spec.decode_words. apply Forall_forall. intros w Hw.
  apply in_map_iff in Hw. destruct Hw as (j & <- & _). apply word_at_u32.
Qed.

Lemma length_decode_words block : length (Spec.decode_words block) = 16%nat.
Proof. reflexivity. Qed.

Lemma unpack_words_by_index n : forall bs,
  Py.unpack_words n bs
  = map (fun j => Py.int_from_le_bytes (firstn 4 (skipn (4 * j) bs)))
      (seq 0 n).
Proof.
  induction n as [|n IH]; intros bs; cbn [Py.unpack_words seq map].
  - reflexivity.
  - f_equal. rewrite IH, <- seq_shift, map_map. apply map_ext. intros j.
    rewrite skipn_skipn. do 3 f_equal. lia.
Qed.

Lemma struct_unpack_16I_ok block :
  length block = 64%nat ->
  Py.struct_unpack_16I block = Ok (Spec.decode_words block).
Proof.
  intros H. unfold Py.struct_unpack_16I. rewrite H. cbn [Nat.eqb].
  now rewrite unpack_words_by_index.
Qed.

Lemma struct_unpack_16I_short block :
  length block <> 64%nat -> Py.struct_unpack_16I block = Raise StructError.
Proof.
  intros H. unfold Py.struct_unpack_16I.
  destruct (Nat.eqb_spec (length block) 64); [contradiction | reflexivity].
Qed.

Lemma zero_count_spec len :
  (Spec.zero_count len < 64)%nat
  /\ ((len + 1 + Spec.zero_count len) mod 64 = 56)%nat.
Proof.
  unfold Spec.zero_count.
  set (L := Z.of_nat len).
  pose proof (Z.mod_pos_bound (56 - (L + 1)) 64 ltac:(lia)) as Hb.
  pose proof (Z.div_mod (56 - (L + 1)) 64 ltac:(lia)) as Hd.
  split; [lia|].
  apply Nat2Z.inj. rewrite Nat2Z.inj_mod, !Nat2Z.inj_add, Z2Nat.id by lia.
  fold L. change (Z.of_nat 64) with 64. change (Z.of_nat 1) with 1.
  change (Z.of_nat 56) with 56. symmetry.
  apply (Z.mod_unique _ _ (- ((56 - (L + 1)) / 64))); lia.
Qed.

Lemma pad_message_ok m :
  pad_message m = m ++ [x80] ++ repeat x00 (Spec.zero_count (length m)).
Proof.
  unfold pad_message, Spec.zero_count. rewrite <- app_assoc. do 3 f_equal.
  rewrite length_app. cbn [length]. rewrite Nat2Z.inj_add.
  change (Z.of_nat 1) with 1.
  replace (448 - (Z.of_nat (length m) + 1) * 8)
    with (8 * (56 - (Z.of_nat (length m) + 1))) by lia.
  change 512 with (8 * 64).
  rewrite Z.mul_mod_distr_l, Z.mul_comm, Z.div_mul by lia. reflexivity.
Qed.

Lemma append_length_ok p len :
  append_length p (Z.of_nat len) = Ok (p ++ Spec.length_field len).
Proof.
  unfold append_length, Py.to_bytes_little, Spec.length_field.
  change (Z.shiftl 1 64 - 1) with (Z.ones 64).
  rewrite Z.land_ones by lia.
  change (256 ^ Z.of_nat 8) with (2 ^ 64).
  pose proof (Z.mod_pos_bound (Z.of_nat len * 8) (2 ^ 64) ltac:(lia)) as Hb.
  destruct (Z.ltb_spec (Z.of_nat len * 8 mod 2 ^ 64) 0); [lia|].
  destruct (Z.leb_spec (2 ^ 64) (Z.of_nat len * 8 mod 2 ^ 64)); [lia|].
  cbn [orb bind]. now rewrite (Z.mul_comm 8).
Qed.

Lemma padder_ok m :
  append_length (pad_message m) (Z.of_nat (length m)) = Ok (Spec.pad m).
Proof.
  rewrite append_length_ok, pad_message_ok. unfold Spec.pad.
  now rewrite <- !app_assoc.
Qed.

Lemma length_pad m :
  length (Spec.pad m)
  = (length m + 1 + Spec.zero_count (length m) + 8)%nat.
Proof.
  unfold Spec.pad, Spec.length_field.
  rewrite !length_app, repeat_length, length_int_to_le_bytes.
  cbn [length]. lia.
Qed.

Lemma length_pad_mod_64 m : (length (Spec.pad m) mod 64 = 0)%nat.
Proof.
  rewrite length_pad.
  destruct (zero_count_spec (length m)) as [_ H].
  rewrite <- Nat.Div0.add_mod_idemp_l, H. reflexivity.
Qed.

(** ** The driver *)

Lemma length_block_at p i :
  (i < length p / 64)%nat -> length (Spec.block_at p i) = 64%nat.
Proof.
  intros Hi. unfold Spec.block_at. rewrite length_firstn, length_skipn.
  pose proof (Nat.Div0.mul_div_le (length p) 64). nia.
Qed.

Lemma blocks_length_64 p : Forall (fun b => length b = 64%nat) (Spec.blocks p).
Proof.
  unfold Spec.blocks. apply Forall_forall. intros b Hb.
  apply in_map_iff in Hb. destruct Hb as (i & <- & Hi).
  apply in_seq in Hi. apply length_block_at. lia.
Qed.

Lemma concat_block_at n : forall p,
  length p = (64 * n)%nat -> concat (map (Spec.block_at p) (seq 0 n)) = p.
Proof.
  induction n as [|n IH]; intros p Hp.
  - destruct p; [reflexivity | discriminate].
  - cbn [seq map concat]. rewrite <- seq_shift, map_map.
    transitivity (firstn 64 p ++ skipn 64 p); [|apply firstn_skipn].
    f_equal.
    etransitivity; [|apply (IH (skipn 64 p)); rewrite length_skipn; lia].
    f_equal. apply map_ext. intros j. unfold Spec.block_at.
    rewrite skipn_skipn. do 2 f_equal. lia.
Qed.

(** The blocks are the padded message cut into consecutive 64-byte pieces. *)
Lemma concat_blocks_pad m : concat (Spec.blocks (Spec.pad m)) = Spec.pad m.
Proof.
  unfold Spec.blocks. apply concat_block_at.
  pose proof (length_pad_mod_64 m) as H.
  pose proof (Nat.div_mod_eq (length (Spec.pad m)) 64). lia.
Qed.

Lemma slice_is_block_at p i :
  Py.slice p (i * 4 * block_size_words) ((i + 1) * 4 * block_size_words)
  = Spec.block_at p i.
Proof.
  unfold Py.slice, Spec.block_at, block_size_words. f_equal.
  - lia.
  - f_equal. lia.
Qed.

Lemma compress_u32 st block : Spec.state_u32 (Spec.compress st block).
Proof.
  unfold Spec.compress, Spec.add_state. destruct st as [[[a b] c] d].
  destruct (Spec.round3 _ _) as [[[a' b'] c'] d'].
  repeat split; apply u32_mod.
Qed.

Lemma fold_compress_u32 bl : forall st,
  Spec.state_u32 st -> Spec.state_u32 (fold_left Spec.compress bl st).
Proof.
  induction bl as [|b bl IH]; intros st Hst; cbn [fold_left].
  - exact Hst.
  - apply IH, compress_u32.
Qed.

Lemma init_state_u32 : Spec.state_u32 Spec.init_state.
Proof. cbv. repeat split; discriminate. Qed.

Lemma md4_loop_body_ok p st i :
  Spec.state_u32 st -> (i < length p / 64)%nat ->
  md4_loop_body p (Spec.buffers_of st) i
  = Ok (Spec.buffers_of (Spec.compress st (Spec.block_at p i))).
Proof.
  intros Hst Hi. unfold md4_loop_body. rewrite slice_is_block_at.
  rewrite struct_unpack_16I_ok by (apply length_block_at, Hi).
  cbn [bind]. unfold Spec.compress.
  set (X := Spec.decode_words (Spec.block_at p i)).
  destruct st as [[[a b] c] d]. cbn [Spec.buffers_of Py.unpack4 bind].
  destruct (round_1_ok a b c d X Hst eq_refl) as [E1 H1]. rewrite E1.
  destruct (Spec.round1 (a, b, c, d) X) as [[[a1 b1] c1] d1]. cbn [bind].
  destruct (round_2_ok a1 b1 c1 d1 X H1 eq_refl) as [E2 H2]. rewrite E2.
  destruct (Spec.round2 (a1, b1, c1, d1) X) as [[[a2 b2] c2] d2]. cbn [bind].
  destruct (round_3_ok a2 b2 c2 d2 X H2 eq_refl) as [E3 H3]. rewrite E3.
  destruct (Spec.round3 (a2, b2, c2, d2) X) as [[[a3 b3] c3] d3]. cbn [bind].
  cbn [combine map Spec.add_state Spec.buffers_of]. unfold Spec.add32.
  rewrite !mask32_is_mod.
  now rewrite (Z.add_comm a3), (Z.add_comm b3), (Z.add_comm c3),
    (Z.add_comm d3).
Qed.

Lemma for_range_succ {S : Type} n (body : S -> nat -> result S) init :
  Py.for_range (Datatypes.S n) body init
  = (s <- Py.for_range n body init ;; body s n).
Proof.
  unfold Py.for_range. now rewrite seq_S, fold_left_app.
Qed.

Lemma md4_loop_ok p n : forall st,
  Spec.state_u32 st -> (n <= length p / 64)%nat ->
  Py.for_range n (md4_loop_body p) (Spec.buffers_of st)
  = Ok (Spec.buffers_of
          (fold_left Spec.compress (map (Spec.block_at p) (seq 0 n)) st)).
Proof.
  induction n as [|n IH]; intros st Hst Hn.
  - reflexivity.
  - rewrite for_range_succ, IH by (assumption || lia). cbn [bind].
    rewrite md4_loop_body_ok by (auto using fold_compress_u32 || lia).
    now rewrite seq_S, map_app, fold_left_app.
Qed.

Lemma struct_pack_4L_ok st :
  Spec.state_u32 st ->
  Py.struct_pack_4L (Spec.buffers_of st) = Ok (Spec.serialize st).
Proof.
  destruct st as [[[a b] c] d]. intros (Ha & Hb & Hc & Hd).
  unfold Py.struct_pack_4L, Spec.serialize, Spec.u32 in *.
  cbn [Spec.buffers_of length Nat.eqb forallb andb flat_map].
  unfold Py.fits_u32.
  repeat match goal with
    | |- context [?x <=? ?y] => destruct (Z.leb_spec x y); [|lia]
    end.
  cbn [andb]. now rewrite app_nil_r.
Qed.

Lemma final_state_u32 m : Spec.state_u32 (Spec.final_state m).
Proof. apply fold_compress_u32, init_state_u32. Qed.

(** The program computes the specification's digest, on every message. *)
Lemma md4_refines_spec m : md4 m = Ok (Spec.digest m).
Proof.
  unfold md4. rewrite padder_ok. cbn [bind].
  change (4 * block_size_words)%nat with 64%nat.
  change [0x67452301; 0xEFCDAB89; 0x98BADCFE; 0x10325476]
    with (Spec.buffers_of Spec.init_state).
  rewrite md4_loop_ok by (apply init_state_u32 || lia). cbn [bind].
  apply struct_pack_4L_ok, final_state_u32.
Qed.

(** ** Little-endian digits and the hexadecimal form *)

Lemma byte_to_of_Z v : Py.byte_to_Z (Py.byte_of_Z v) = v mod 256.
Proof.
  unfold Py.byte_to_Z, Py.byte_of_Z.
  pose proof (Z.mod_pos_bound v 256 ltac:(lia)) as Hb.
  destruct (Byte.of_N (Z.to_N (v mod 256))) as [b|] eqn:E.
  - apply Byte.to_of_N in E. rewrite E. lia.
  - apply Byte.of_N_None_iff in E. lia.
Qed.

Lemma int_from_to_le_bytes n : forall v,
  Py.int_from_le_bytes (Py.int_to_le_bytes n v) = v mod 256 ^ Z.of_nat n.
Proof.
  induction n as [|n IH]; intros v;
    cbn [Py.int_to_le_bytes Py.int_from_le_bytes].
  - cbn. now rewrite Z.mod_1_r.
  - rewrite IH, byte_to_of_Z, Nat2Z.inj_succ, Z.pow_succ_r by lia.
    rewrite Z.rem_mul_r by lia. reflexivity.
Qed.

Lemma hex_digit_lower n : Spec.is_lower_hex (Py.hex_digit n) = true.
Proof.
  do 16 (destruct n as [|n]; [reflexivity|]). reflexivity.
Qed.

Lemma hex_cons b bs :
  Py.hex (b :: bs)
  = String (Py.hex_digit (Byte.to_nat b / 16))
      (String (Py.hex_digit (Byte.to_nat b mod 16)) (Py.hex bs)).
Proof. reflexivity. Qed.

Lemma hex_encodes_bytes d : Spec.hex_encodes d (Py.hex d).
Proof.
  unfold Spec.hex_encodes. induction d as [|b d (Hlen & Hlow & Hget)].
  - repeat split; try reflexivity; destruct i; discriminate.
  - rewrite hex_cons. split; [|split].
    + cbn [String.length length]. rewrite Hlen. lia.
    + cbn [list_ascii_of_string forallb]. now rewrite !hex_digit_lower, Hlow.
    + intros [|i] c Hc.
      * injection Hc as <-. split; reflexivity.
      * cbn [nth_error] in Hc. destruct (Hget i c Hc) as [H1 H2].
        replace (2 * S i)%nat with (S (S (2 * i))) by lia.
        replace (S (S (2 * i)) + 1)%nat with (S (S (2 * i + 1))) by lia.
        cbn [String.get]. split; assumption.
Qed.

Lemma length_serialize st : length (Spec.serialize st) = 16%nat.
Proof.
  destruct st as [[[a b] c] d]. unfold Spec.serialize.
  now rewrite !length_app, !length_int_to_le_bytes.
Qed.

Lemma length_digest m : length (Spec.digest m) = 16%nat.
Proof. apply length_serialize. Qed.

Lemma md4_hex_digest_ok m : md4_hex_digest m = Ok (Py.hex (Spec.digest m)).
Proof. unfold md4_hex_digest. now rewrite md4_refines_spec. Qed.

(** ** Every binding of the state during a run *)

Lemma returns_map_Ok {A : Type} (P : A -> Prop) (l : list A) :
  Forall P l -> Forall (returns P) (map Ok l).
Proof.
  intros H. induction H as [|a l Ha _ IH]; cbn [map]; constructor.
  - exists a. split; [reflexivity | exact Ha].
  - exact IH.
Qed.

Lemma round_1_prefixes st X :
  Spec.state_u32 st -> length X = 16%nat ->
  Sched.prefix_states operation_round_1 Spec.word_order_1
    Spec.rotate_amounts_1 st X
  = map Ok (Spec.round_states Spec.step1 Spec.word_order_1
              Spec.rotate_amounts_1 st X).
Proof.
  intros Hst HX. apply sched_prefix_states_ok; trivial.
  - intros a b c d x i Hb Hc Hd. apply operation_round_1_ok; trivial.
    apply rotate_amount_bounds, rotate_amounts_in_range.
  - intros. apply rotl_u32.
  - intros i. rewrite HX. apply word_index_in_range, word_orders_in_range.
Qed.

Lemma round_2_prefixes st X :
  Spec.state_u32 st -> length X = 16%nat ->
  Sched.prefix_states operation_round_2 Spec.word_order_2
    Spec.rotate_amounts_2 st X
  = map Ok (Spec.round_states Spec.step2 Spec.word_order_2
              Spec.rotate_amounts_2 st X).
Proof.
  intros Hst HX. apply sched_prefix_states_ok; trivial.
  - intros a b c d x i Hb Hc Hd. apply operation_round_2_ok; trivial.
    apply rotate_amount_bounds, rotate_amounts_in_range.
  - intros. apply rotl_u32.
  - intros i. rewrite HX. apply word_index_in_range, word_orders_in_range.
Qed.

Lemma round_3_prefixes st X :
  Spec.state_u32 st -> length X = 16%nat ->
  Sched.prefix_states operation_round_3 Spec.word_order_3
    Spec.rotate_amounts_3 st X
  = map Ok (Spec.round_states Spec.step3 Spec.word_order_3
              Spec.rotate_amounts_3 st X).
Proof.
  intros Hst HX. apply sched_prefix_states_ok; trivial.
  - intros a b c d x i Hb Hc Hd. apply operation_round_3_ok; trivial.
    apply rotate_amount_bounds, rotate_amounts_in_range.
  - intros. apply rotl_u32.
  - intros i. rewrite HX. apply word_index_in_range, word_orders_in_range.
Qed.

Lemma on_state_round_1 st X :
  Spec.state_u32 st -> length X = 16%nat ->
  Sched.on_state round_1 st X = Ok (Spec.round1 st X)
  /\ Spec.state_u32 (Spec.round1 st X).
Proof. destruct st as [[[a b] c] d]. apply round_1_ok. Qed.

Lemma on_state_round_2 st X :
  Spec.state_u32 st -> length X = 16%nat ->
  Sched.on_state round_2 st X = Ok (Spec.round2 st X)
  /\ Spec.state_u32 (Spec.round2 st X).
Proof. destruct st as [[[a b] c] d]. apply round_2_ok. Qed.

Lemma on_state_round_3 st X :
  Spec.state_u32 st -> length X = 16%nat ->
  Sched.on_state round_3 st X = Ok (Spec.round3 st X)
  /\ Spec.state_u32 (Spec.round3 st X).
Proof. destruct st as [[[a b] c] d]. apply round_3_ok. Qed.

Lemma length_blocks p : length (Spec.blocks p) = (length p / 64)%nat.
Proof. unfold Spec.blocks. now rewrite length_map, length_seq. Qed.

Lemma firstn_seq_prefix n : forall start len,
  (n <= len)%nat -> firstn n (seq start len) = seq start n.
Proof.
  induction n as [|n IH]; intros start len Hn.
  - reflexivity.
  - destruct len as [|len]; [lia|]. cbn [seq firstn]. f_equal.
    apply IH. lia.
Qed.

Lemma firstn_blocks p n :
  (n <= length p / 64)%nat ->
  firstn n (Spec.blocks p) = map (Spec.block_at p) (seq 0 n).
Proof.
  intros Hn. unfold Spec.blocks.
  now rewrite firstn_map, firstn_seq_prefix.
Qed.

Lemma nth_blocks p n :
  (n < length p / 64)%nat -> nth n (Spec.blocks p) [] = Spec.block_at p n.
Proof.
  intros Hn. unfold Spec.blocks.
  rewrite (nth_indep _ [] (Spec.block_at p 0))
    by (rewrite length_map, length_seq; lia).
  rewrite map_nth, seq_nth by lia. reflexivity.
Qed.

(** Whatever the buffers and the block index, what one pass of the loop
    stores back is a list of words: the accumulation is masked. *)
Lemma md4_loop_body_masked p buffers i :
  if_returns (Forall Spec.u32) (md4_loop_body p buffers i).
Proof.
  unfold md4_loop_body.
  destruct (Py.struct_unpack_16I _) as [X|]; cbn [bind if_returns]; trivial.
  destruct (Py.unpack4 buffers) as [[[[a b] c] d]|]; cbn [bind if_returns];
    trivial.
  destruct (round_1 a b c d X) as [[[[a1 b1] c1] d1]|];
    cbn [bind if_returns]; trivial.
  destruct (round_2 a1 b1 c1 d1 X) as [[[[a2 b2] c2] d2]|];
    cbn [bind if_returns]; trivial.
  destruct (round_3 a2 b2 c2 d2 X) as [[[[a3 b3] c3] d3]|];
    cbn [bind if_returns]; trivial.
  apply Forall_forall. intros v Hv. apply in_map_iff in Hv.
  destruct Hv as ([v' n'] & <- & _). rewrite mask32_is_mod. apply u32_mod.
Qed.

Lemma left_rotate_masked x n : if_returns Spec.u32 (left_rotate x n).
Proof.
  destruct (Z.lt_ge_cases n 0);
    [rewrite left_rotate_raises by lia; exact I|].
  destruct (Z.lt_ge_cases 32 n);
    [rewrite left_rotate_raises by lia; exact I|].
  rewrite left_rotate_ok by lia. apply rotl_u32.
Qed.

(** ** When a round fails

    The rotate amounts of the tables never make [left_rotate] raise, so on
    any integers a round can only fail by indexing past the end of [X]. *)

Section RoundFailure.

Variable op : Z -> Z -> Z -> Z -> Z -> Z -> result Z.
Variable order : list nat.
Variable amounts : list Z.
Variable X : list Z.

Hypothesis op_total : forall a b c d x i,
  exists r, op a b c d x (Spec.rotate_amount amounts i) = Ok r.

Lemma sched_turn_total st i k :
  (k < length X)%nat ->
  exists st', Sched.turn op X st i k (Spec.rotate_amount amounts i) = Ok st'.
Proof.
  intros Hk. destruct st as [[[a b] c] d]. unfold Sched.turn, Py.getitem.
  destruct (nth_error X k) as [x|] eqn:E.
  - cbn [bind]. destruct (i mod 4)%nat as [|[|[|?]]].
    + destruct (op_total a b c d x i) as [r ->]. eexists. reflexivity.
    + destruct (op_total d a b c x i) as [r ->]. eexists. reflexivity.
    + destruct (op_total c d a b x i) as [r ->]. eexists. reflexivity.
    + destruct (op_total b c d a x i) as [r ->]. eexists. reflexivity.
  - apply nth_error_None in E. lia.
Qed.

Lemma sched_turn_short st i k s :
  (length X <= k)%nat -> Sched.turn op X st i k s = Raise IndexError.
Proof.
  intros Hk. destruct st as [[[a b] c] d]. unfold Sched.turn, Py.getitem.
  apply nth_error_None in Hk. now rewrite Hk.
Qed.

Lemma sched_run_steps_total steps :
  (forall i, In i steps -> (Spec.word_index order i < length X)%nat) ->
  forall st, exists st', Sched.run_steps op order amounts X steps st = Ok st'.
Proof.
  induction steps as [|i steps IH]; intros Hidx st; cbn [Sched.run_steps].
  - eexists. reflexivity.
  - destruct (sched_turn_total st i (Spec.word_index order i)) as [st1 ->].
    + apply Hidx. now left.
    + cbn [bind]. apply IH. intros j Hj. apply Hidx. now right.
Qed.

Lemma sched_run_steps_short steps :
  (exists i, In i steps /\ (length X <= Spec.word_index order i)%nat) ->
  forall st,
    Sched.run_steps op order amounts X steps st = Raise IndexError.
Proof.
  induction steps as [|i steps IH]; intros (j & Hj & Hlen) st.
  - destruct Hj.
  - cbn [Sched.run_steps].
    destruct (Nat.lt_ge_cases (Spec.word_index order i) (length X))
      as [Hlt | Hge].
    + destruct (sched_turn_total st i _ Hlt) as [st1 ->]. cbn [bind].
      apply IH. exists j. split; [|exact Hlen].
      destruct Hj as [<- | Hj]; [lia | exact Hj].
    + now rewrite sched_turn_short.
Qed.

End RoundFailure.

Lemma sched_run_total_or_index_error op order amounts st X :
  (forall a b c d x i,
      exists r, op a b c d x (Spec.rotate_amount amounts i) = Ok r) ->
  Forall (fun k => (k < 16)%nat) order ->
  Spec.word_index order 15 = 15%nat ->
  if (16 <=? length X)%nat
  then returns (fun _ => True) (Sched.run op order amounts st X)
  else Sched.run op order amounts st X = Raise IndexError.
Proof.
  intros Hop Hord H15. unfold Sched.run.
  destruct (Nat.leb_spec 16 (length X)) as [Hlen | Hlen].
  - destruct (sched_run_steps_total op order amounts X Hop (seq 0 16))
      with (st := st) as [st' E].
    + intros i _. pose proof (word_index_in_range order i Hord). lia.
    + exists st'. split; [exact E | exact I].
  - apply sched_run_steps_short; [exact Hop|].
    exists 15%nat. split; [|lia]. apply in_seq. lia.
Qed.

Lemma operation_round_1_total a b c d x i :
  exists r,
    operation_round_1 a b c d x (Spec.rotate_amount Spec.rotate_amounts_1 i)
    = Ok r.
Proof.
  unfold operation_round_1. rewrite left_rotate_ok.
  - eexists. reflexivity.
  - apply rotate_amount_bounds, rotate_amounts_in_range.
Qed.

Lemma operation_round_2_total a b c d x i :
  exists r,
    operation_round_2 a b c d x (Spec.rotate_amount Spec.rotate_amounts_2 i)
    = Ok r.
Proof.
  unfold operation_round_2. rewrite left_rotate_ok.
  - eexists. reflexivity.
  - apply rotate_amount_bounds, rotate_amounts_in_range.
Qed.

Lemma operation_round_3_total a b c d x i :
  exists r,
    operation_round_3 a b c d x (Spec.rotate_amount Spec.rotate_amounts_3 i)
    = Ok r.
Proof.
  unfold operation_round_3. rewrite left_rotate_ok.
  - eexists. reflexivity.
  - apply rotate_amount_bounds, rotate_amounts_in_range.
Qed.

Lemma round_1_total_or_index_error A B C D X :
  if (16 <=? length X)%nat
  then returns (fun _ => True) (round_1 A B C D X)
  else round_1 A B C D X = Raise IndexError.
Proof.
  rewrite round_1_schedule. apply sched_run_total_or_index_error.
  - apply operation_round_1_total.
  - apply word_orders_in_range.
  - reflexivity.
Qed.

Lemma round_2_total_or_index_error A B C D X :
  if (16 <=? length X)%nat
  then returns (fun _ => True) (round_2 A B C D X)
  else round_2 A B C D X = Raise IndexError.
Proof.
  rewrite round_2_schedule. apply sched_run_total_or_index_error.
  - apply operation_round_2_total.
  - apply word_orders_in_range.
  - reflexivity.
Qed.

Lemma round_3_total_or_index_error A B C D X :
  if (16 <=? length X)%nat
  then returns (fun _ => True) (round_3 A B C D X)
  else round_3 A B C D X = Raise IndexError.
Proof.
  rewrite round_3_schedule. apply sched_run_total_or_index_error.
  - apply operation_round_3_total.
  - apply word_orders_in_range.
  - reflexivity.
Qed.

Lemma state_after_next_block p n :
  (n < length p / 64)%nat ->
  fold_left Spec.compress (firstn (S n) (Spec.blocks p)) Spec.init_state
  = Spec.compress
      (fold_left Spec.compress (firstn n (Spec.blocks p)) Spec.init_state)
      (nth n (Spec.blocks p) []).
Proof.
  intros Hn. rewrite !firstn_blocks, nth_blocks by lia.
  now rewrite seq_S, map_app, fold_left_app.
Qed.

(** * The claims *)

(** C1 - The hex digest function returns the five RFC 1320 known answers:
    on the ASCII bytes of the empty message, "a", "abc", "message digest"
    and "abcdefghijklmnopqrstuvwxyz", [md4_hex_digest] returns the five
    expected 32-character strings. *)
Theorem md4_hex_digest_rfc1320_vectors :
  md4_hex_digest (ascii_bytes "")
  = Ok "31d6cfe0d16ae931b73c59d7e0c089c0"%string
  /\ md4_hex_digest (ascii_bytes "a")
     = Ok "bde52cb31de33e46245e05fbdbd6fb24"%string
  /\ md4_hex_digest (ascii_bytes "abc")
     = Ok "a448017aaf21d8525fc10ae87aa6729d"%string
  /\ md4_hex_digest (ascii_bytes "message digest")
     = Ok "d9130a8164549fe818874806e1c7014b"%string
  /\ md4_hex_digest (ascii_bytes "abcdefghijklmnopqrstuvwxyz")
     = Ok "d79e1c308aa5bbcdeea8ed63df412da9"%string.
Proof. repeat split; vm_compute; reflexivity. Qed.

(** C2 - For every message, [md4] is a sequential fold over the 64-byte
    blocks of the padded message, in order.  The padded message is the
    concatenation of its blocks, each of 64 bytes, and block [n] is the
    slice the loop takes at its pass [n].  At pass [n] the block is decoded
    into its 16 little-endian words, round 1 runs on the entering state,
    round 2 on the result of round 1, round 3 on the result of round 2, and
    what the pass stores is the entering state plus the result of round 3,
    component by component modulo 2^32: the state before block [n + 1].
    After the last block the digest is the little-endian encoding of A, B,
    C, D in that order. *)
Theorem md4_is_fold_over_blocks (m : list byte) :
  let padded := Spec.pad m in
  let blocks := Spec.blocks padded in
  let state_before n :=
    fold_left Spec.compress (firstn n blocks) Spec.init_state in
  append_length (pad_message m) (Z.of_nat (length m)) = Ok padded
  /\ concat blocks = padded
  /\ Forall (fun b => length b = 64%nat) blocks
  /\ Forall
       (fun n =>
          let entering := state_before n in
          let X := Spec.decode_words (nth n blocks []) in
          Py.slice padded (n * 4 * block_size_words)
            ((n + 1) * 4 * block_size_words) = nth n blocks []
          /\ Py.struct_unpack_16I (nth n blocks []) = Ok X
          /\ exists r1 r2 r3,
               Sched.on_state round_1 entering X = Ok r1
               /\ Sched.on_state round_2 r1 X = Ok r2
               /\ Sched.on_state round_3 r2 X = Ok r3
               /\ md4_loop_body padded (Spec.buffers_of entering) n
                  = Ok (Spec.buffers_of (Spec.add_state entering r3))
               /\ state_before (S n) = Spec.add_state entering r3)
       (seq 0 (length blocks))
  /\ Py.for_range (length blocks) (md4_loop_body padded)
       (Spec.buffers_of Spec.init_state)
     = Ok (Spec.buffers_of (state_before (length blocks)))
  /\ state_before (length blocks)
     = fold_left Spec.compress blocks Spec.init_state
  /\ exists A B C D,
       fold_left Spec.compress blocks Spec.init_state = (A, B, C, D)
       /\ md4 m
          = Ok (Py.int_to_le_bytes 4 A ++ Py.int_to_le_bytes 4 B
                  ++ Py.int_to_le_bytes 4 C ++ Py.int_to_le_bytes 4 D)
       /\ map Py.int_from_le_bytes
            [Py.int_to_le_bytes 4 A; Py.int_to_le_bytes 4 B;
             Py.int_to_le_bytes 4 C; Py.int_to_le_bytes 4 D]
          = [A; B; C; D].
Proof.
  intros padded blocks state_before.
  assert (Hlen : length blocks = (length padded / 64)%nat)
    by apply length_blocks.
  split; [apply padder_ok|].
  split; [apply concat_blocks_pad|].
  split; [apply blocks_length_64|].
  split; [|split; [|split]].
  - apply Forall_forall. intros n Hn. apply in_seq in Hn.
    assert (Hn' : (n < length padded / 64)%nat) by lia.
    assert (Hst : Spec.state_u32 (state_before n))
      by apply fold_compress_u32, init_state_u32.
    assert (Hnth : nth n blocks [] = Spec.block_at padded n)
      by apply nth_blocks, Hn'.
    cbv zeta. rewrite Hnth.
    split; [apply slice_is_block_at|].
    split; [apply struct_unpack_16I_ok, length_block_at, Hn'|].
    set (X := Spec.decode_words (Spec.block_at padded n)).
    destruct (on_state_round_1 (state_before n) X Hst eq_refl) as [E1 H1].
    destruct (on_state_round_2 _ X H1 eq_refl) as [E2 H2].
    destruct (on_state_round_3 _ X H2 eq_refl) as [E3 _].
    exists (Spec.round1 (state_before n) X).
    exists (Spec.round2 (Spec.round1 (state_before n) X) X).
    exists (Spec.round3 (Spec.round2 (Spec.round1 (state_before n) X) X) X).
    split; [exact E1|]. split; [exact E2|]. split; [exact E3|]. split.
    + rewrite md4_loop_body_ok by assumption. reflexivity.
    + unfold state_before, blocks.
      rewrite state_after_next_block, nth_blocks by exact Hn'.
      unfold Spec.compress. reflexivity.
  - unfold state_before, blocks. rewrite length_blocks.
    rewrite md4_loop_ok by (apply init_state_u32 || lia).
    rewrite firstn_blocks by lia. reflexivity.
  - unfold state_before. now rewrite firstn_all.
  - pose proof (final_state_u32 m) as Hfin.
    pose proof (md4_refines_spec m) as Hmd4.
    unfold Spec.digest, Spec.final_state in *. fold padded blocks in Hfin, Hmd4.
    destruct (fold_left Spec.compress blocks Spec.init_state)
      as [[[A B] C] D].
    exists A, B, C, D. destruct Hfin as (HA & HB & HC & HD).
    repeat split; [exact Hmd4|].
    cbn [map]. rewrite !int_from_to_le_bytes.
    change (256 ^ Z.of_nat 4) with (2 ^ 32).
    now rewrite !u32_mod_id.
Qed.

(** C3 - Each round is 16 steps.  Step [i] recomputes one of a, d, c, b in
    that cyclic order from the current values of the other three, reads
    word [order[i]] and rotates by [amounts[i mod 4]], with the orders and
    amounts of the specification's table.  On every input, failing ones
    included, the unrolled rounds of the program are the rounds run from
    the table. *)
Theorem rounds_follow_step_tables (A B C D : Z) (X : list Z) :
  (Spec.word_order_1
   = [0; 1; 2; 3; 4; 5; 6; 7; 8; 9; 10; 11; 12; 13; 14; 15]%nat
   /\ Spec.rotate_amounts_1 = [3; 7; 11; 19]
   /\ round_1 A B C D X
      = Sched.run_steps operation_round_1 Spec.word_order_1
          Spec.rotate_amounts_1 X (seq 0 16) (A, B, C, D))
  /\ (Spec.word_order_2
      = [0; 4; 8; 12; 1; 5; 9; 13; 2; 6; 10; 14; 3; 7; 11; 15]%nat
      /\ Spec.rotate_amounts_2 = [3; 5; 9; 13]
      /\ round_2 A B C D X
         = Sched.run_steps operation_round_2 Spec.word_order_2
             Spec.rotate_amounts_2 X (seq 0 16) (A, B, C, D))
  /\ (Spec.word_order_3
      = [0; 8; 4; 12; 2; 10; 6; 14; 1; 9; 5; 13; 3; 11; 7; 15]%nat
      /\ Spec.rotate_amounts_3 = [3; 9; 11; 15]
      /\ round_3 A B C D X
         = Sched.run_steps operation_round_3 Spec.word_order_3
             Spec.rotate_amounts_3 X (seq 0 16) (A, B, C, D)).
Proof.
  repeat split.
  - apply round_1_schedule.
  - apply round_2_schedule.
  - apply round_3_schedule.
Qed.

(** C4 - On 32-bit a, b, c, d and message word x, and a rotate amount s
    between 1 and 31, the step of round 1 returns
    rotl((a + f(b,c,d) + x) mod 2^32, s) with no additive constant, the
    step of round 2 returns rotl((a + g(b,c,d) + x + 0x5A827999) mod 2^32, s)
    and the step of round 3 returns
    rotl((a + h(b,c,d) + x + 0x6ED9EBA1) mod 2^32, s); the value is the same
    when every intermediate sum wraps modulo 2^32 on its own. *)
Theorem round_steps_spec (a b c d x s : Z) :
  Spec.u32 a -> Spec.u32 b -> Spec.u32 c -> Spec.u32 d -> Spec.u32 x ->
  1 <= s <= 31 ->
  (operation_round_1 a b c d x s
   = Ok (Spec.rotl ((a + Spec.f b c d + x) mod 2 ^ 32) s)
   /\ operation_round_1 a b c d x s = Ok (Spec.step1_wrapping a b c d x s))
  /\ (operation_round_2 a b c d x s
      = Ok (Spec.rotl ((a + Spec.g b c d + x + 0x5A827999) mod 2 ^ 32) s)
      /\ operation_round_2 a b c d x s
         = Ok (Spec.step2_wrapping a b c d x s))
  /\ (operation_round_3 a b c d x s
      = Ok (Spec.rotl ((a + Spec.h b c d + x + 0x6ED9EBA1) mod 2 ^ 32) s)
      /\ operation_round_3 a b c d x s
         = Ok (Spec.step3_wrapping a b c d x s)).
Proof.
  intros _ Hb Hc Hd _ Hs.
  assert (Hs' : 0 <= s <= 32) by lia.
  repeat split.
  - now rewrite operation_round_1_ok.
  - now rewrite operation_round_1_ok, step1_wraps.
  - now rewrite operation_round_2_ok.
  - now rewrite operation_round_2_ok, step2_wraps.
  - now rewrite operation_round_3_ok.
  - now rewrite operation_round_3_ok, step3_wraps.
Qed.

Lemma round_steps_spec_witness :
  (Spec.u32 0x67452301 /\ Spec.u32 0xEFCDAB89 /\ Spec.u32 0x98BADCFE
   /\ Spec.u32 0x10325476 /\ Spec.u32 0x80 /\ 1 <= 19 <= 31)
  /\ operation_round_1 0x67452301 0xEFCDAB89 0x98BADCFE 0x10325476 0x80 19
     = Ok (Spec.step1_wrapping
             0x67452301 0xEFCDAB89 0x98BADCFE 0x10325476 0x80 19).
Proof.
  split.
  - unfold Spec.u32. repeat split; lia.
  - apply (round_steps_spec
             0x67452301 0xEFCDAB89 0x98BADCFE 0x10325476 0x80 19);
      unfold Spec.u32; lia.
Defined.

(** C5 - For every message m the padder returns m, then 0x80, then zero
    bytes until the length is 56 mod 64 (fewer than 64 of them), then the
    8 little-endian bytes of 8 * len(m) mod 2^64.  The result has a length
    that is a multiple of 64 and at least len(m) + 9.  The empty message
    gives 64 bytes: 0x80, 55 zero bytes, 8 zero bytes. *)
Theorem padder_spec (m : list byte) :
  let zeros := Spec.zero_count (length m) in
  let field := Spec.length_field (length m) in
  append_length (pad_message m) (Z.of_nat (length m))
  = Ok (m ++ [x80] ++ repeat x00 zeros ++ field)
  /\ ((length m + 1 + zeros) mod 64 = 56)%nat
  /\ (zeros < 64)%nat
  /\ length field = 8%nat
  /\ Py.int_from_le_bytes field = (8 * Z.of_nat (length m)) mod 2 ^ 64
  /\ (length (Spec.pad m) mod 64 = 0)%nat
  /\ (length m + 9 <= length (Spec.pad m))%nat
  /\ Spec.pad m = m ++ [x80] ++ repeat x00 zeros ++ field
  /\ append_length (pad_message []) 0
     = Ok ([x80] ++ repeat x00 55 ++ repeat x00 8)
  /\ length ([x80] ++ repeat x00 55 ++ repeat x00 8) = 64%nat.
Proof.
  intros zeros field.
  destruct (zero_count_spec (length m)) as [Hlt Hmod].
  split; [apply padder_ok|].
  split; [exact Hmod|].
  split; [exact Hlt|].
  split; [apply length_int_to_le_bytes|].
  split.
  { unfold field, Spec.length_field. rewrite int_from_to_le_bytes.
    change (256 ^ Z.of_nat 8) with (2 ^ 64). apply Z.mod_mod. lia. }
  split; [apply length_pad_mod_64|].
  split; [rewrite length_pad; lia|].
  split; [reflexivity|].
  split; reflexivity.
Qed.

(** C6 - On x, y, z in [0, 2^32), [f] is (x AND y) OR ((NOT x) AND z) with
    the 32-bit complement, [g] is the majority (x AND y) OR (x AND z) OR
    (y AND z), [h] is x XOR y XOR z, bit by bit: [f] selects y or z by the
    bit of x, [g] is the majority of the three bits, [h] their parity.
    Each result lies in [0, 2^32), so masking it to 32 bits changes
    nothing. *)
Theorem mixing_functions_spec (x y z : Z) :
  Spec.u32 x -> Spec.u32 y -> Spec.u32 z ->
  (f x y z = Z.lor (Z.land x y) (Z.land (Spec.not32 x) z)
   /\ g x y z = Z.lor (Z.lor (Z.land x y) (Z.land x z)) (Z.land y z)
   /\ h x y z = Z.lxor (Z.lxor x y) z)
  /\ (Spec.u32 (f x y z) /\ Spec.u32 (g x y z) /\ Spec.u32 (h x y z))
  /\ (Z.land (f x y z) 0xFFFFFFFF = f x y z
      /\ Z.land (g x y z) 0xFFFFFFFF = g x y z
      /\ Z.land (h x y z) 0xFFFFFFFF = h x y z)
  /\ (forall i : nat,
        let bit v := Z.testbit v (Z.of_nat i) in
        bit (f x y z) = (if bit x then bit y else bit z)
        /\ bit (g x y z)
           = (bit x && bit y || bit x && bit z || bit y && bit z)
        /\ bit (h x y z) = xorb (xorb (bit x) (bit y)) (bit z)).
Proof.
  intros Hx Hy Hz.
  assert (Hf : Spec.u32 (f x y z))
    by (rewrite f_is_spec by assumption; now apply spec_f_u32).
  assert (Hg : Spec.u32 (g x y z)) by now apply spec_g_u32.
  assert (Hh : Spec.u32 (h x y z)) by now apply spec_h_u32.
  split; [|split; [|split]].
  - split; [now apply f_is_spec | split; reflexivity].
  - auto.
  - rewrite !mask32_is_mod. now rewrite !u32_mod_id.
  - intros i bit. unfold bit, f, g, h.
    rewrite !Z.lor_spec, !Z.land_spec, !Z.lxor_spec, Z.lnot_spec by lia.
    repeat split.
    destruct (Z.testbit x (Z.of_nat i)), (Z.testbit y (Z.of_nat i)),
      (Z.testbit z (Z.of_nat i)); reflexivity.
Qed.

Lemma mixing_functions_spec_witness :
  (Spec.u32 0xEFCDAB89 /\ Spec.u32 0x98BADCFE /\ Spec.u32 0x10325476)
  /\ Spec.u32 (f 0xEFCDAB89 0x98BADCFE 0x10325476)
  /\ Spec.u32 (g 0xEFCDAB89 0x98BADCFE 0x10325476)
  /\ Spec.u32 (h 0xEFCDAB89 0x98BADCFE 0x10325476).
Proof.
  split.
  - unfold Spec.u32. repeat split; lia.
  - apply (mixing_functions_spec 0xEFCDAB89 0x98BADCFE 0x10325476);
      unfold Spec.u32; lia.
Defined.

(** C7 - For x in [0, 2^32) and 1 <= n <= 31, [left_rotate x n] returns
    ((x << n) | (x >> (32 - n))) mod 2^32; this is the circular left shift
    of x by n positions on 32 bits (bit i of the result is bit i - n of x,
    positions modulo 32), and it lies in [0, 2^32). *)
Theorem left_rotate_spec (x n : Z) :
  Spec.u32 x -> 1 <= n <= 31 ->
  left_rotate x n
  = Ok (Z.lor (Z.shiftl x n) (Z.shiftr x (32 - n)) mod 2 ^ 32)
  /\ returns (fun r => Spec.is_rotation x n r /\ Spec.u32 r)
       (left_rotate x n).
Proof.
  intros Hx Hn. rewrite left_rotate_ok by lia. split; [reflexivity|].
  exists (Spec.rotl x n). split; [reflexivity|]. split.
  - now apply rotl_is_rotation.
  - apply rotl_u32.
Qed.

Lemma left_rotate_spec_witness :
  (Spec.u32 0x80000001 /\ 1 <= 3 <= 31)
  /\ left_rotate 0x80000001 3
     = Ok (Z.lor (Z.shiftl 0x80000001 3) (Z.shiftr 0x80000001 (32 - 3))
           mod 2 ^ 32).
Proof.
  split.
  - unfold Spec.u32. lia.
  - apply (left_rotate_spec 0x80000001 3); unfold Spec.u32; lia.
Defined.

Lemma buffers_of_u32 st :
  Spec.state_u32 st -> Forall Spec.u32 (Spec.buffers_of st).
Proof.
  destruct st as [[[a b] c] d]. intros (Ha & Hb & Hc & Hd).
  cbn [Spec.buffers_of]. auto using Forall_cons, Forall_nil.
Qed.

Lemma md4_loop_prefix_u32 p n :
  (n <= length p / 64)%nat ->
  returns
    (fun bufs =>
       bufs = Spec.buffers_of
                (fold_left Spec.compress (firstn n (Spec.blocks p))
                   Spec.init_state)
       /\ Forall Spec.u32 bufs)
    (Py.for_range n (md4_loop_body p) (Spec.buffers_of Spec.init_state)).
Proof.
  intros Hn. rewrite md4_loop_ok by (apply init_state_u32 || exact Hn).
  rewrite <- firstn_blocks by exact Hn.
  eexists. split; [reflexivity|]. split; [reflexivity|].
  apply buffers_of_u32, fold_compress_u32, init_state_u32.
Qed.

(** C8 - For every message m, [md4 m] returns exactly 16 bytes, and
    [md4_hex_digest m] returns their hexadecimal form: 32 characters, all
    lowercase hexadecimal digits, byte i of the digest at characters 2i
    and 2i+1, in the order of the digest bytes. *)
Theorem digest_16_bytes_hex_32_chars (m : list byte) :
  returns
    (fun d =>
       length d = 16%nat
       /\ md4_hex_digest m = Ok (Py.hex d)
       /\ String.length (Py.hex d) = 32%nat
       /\ Spec.hex_encodes d (Py.hex d))
    (md4 m).
Proof.
  exists (Spec.digest m). split; [apply md4_refines_spec|].
  pose proof (hex_encodes_bytes (Spec.digest m)) as Henc.
  split; [apply length_digest|].
  split; [apply md4_hex_digest_ok|].
  split; [|exact Henc].
  destruct Henc as [Hlen _]. rewrite Hlen, length_digest. reflexivity.
Qed.

(** C9 - [md4] is total: on every message it returns 16 bytes.  The padder
    returns; every slice the loop takes from the padded message has exactly
    64 bytes and decodes into 16 words; the loop returns after every pass;
    every word index of the tables is below 16 and every rotate amount s
    has 0 <= s and 0 <= 32 - s, so that [left_rotate] returns on it for
    any integer; and on any integers a round returns as soon as X has 16
    entries (its only failure is an index past the end of a shorter X). *)
Theorem md4_never_fails (m : list byte) :
  returns (fun d => length d = 16%nat) (md4 m)
  /\ returns
       (fun padded =>
          Forall
            (fun i =>
               let block :=
                 Py.slice padded (i * 4 * block_size_words)
                   ((i + 1) * 4 * block_size_words) in
               length block = 64%nat
               /\ returns (fun X => length X = 16%nat)
                    (Py.struct_unpack_16I block)
               /\ returns (Forall Spec.u32)
                    (Py.for_range (S i) (md4_loop_body padded)
                       [0x67452301; 0xEFCDAB89; 0x98BADCFE; 0x10325476]))
            (seq 0 (length padded / (4 * block_size_words))))
       (append_length (pad_message m) (Z.of_nat (length m)))
  /\ (Forall (fun k => (k < 16)%nat) Spec.word_order_1
      /\ Forall (fun k => (k < 16)%nat) Spec.word_order_2
      /\ Forall (fun k => (k < 16)%nat) Spec.word_order_3)
  /\ (forall x : Z,
        Forall
          (fun s => 0 <= s /\ 0 <= 32 - s
                    /\ returns Spec.u32 (left_rotate x s))
          (Spec.rotate_amounts_1 ++ Spec.rotate_amounts_2
             ++ Spec.rotate_amounts_3))
  /\ (forall (A B C D : Z) (X : list Z),
        (if (16 <=? length X)%nat
         then returns (fun _ => True) (round_1 A B C D X)
         else round_1 A B C D X = Raise IndexError)
        /\ (if (16 <=? length X)%nat
            then returns (fun _ => True) (round_2 A B C D X)
            else round_2 A B C D X = Raise IndexError)
        /\ (if (16 <=? length X)%nat
            then returns (fun _ => True) (round_3 A B C D X)
            else round_3 A B C D X = Raise IndexError)).
Proof.
  split; [|split; [|split; [|split]]].
  - exists (Spec.digest m). split; [apply md4_refines_spec|apply length_digest].
  - exists (Spec.pad m). split; [apply padder_ok|].
    change (4 * block_size_words)%nat with 64%nat.
    apply Forall_forall. intros i Hi. apply in_seq in Hi. cbv zeta.
    rewrite slice_is_block_at.
    split; [apply length_block_at; lia|].
    split.
    + exists (Spec.decode_words (Spec.block_at (Spec.pad m) i)).
      split; [apply struct_unpack_16I_ok, length_block_at; lia|reflexivity].
    + destruct (md4_loop_prefix_u32 (Spec.pad m) (S i)) as (bufs & E & _ & H);
        [lia|].
      exists bufs. split; [exact E | exact H].
  - apply word_orders_in_range.
  - intros x. apply Forall_forall. intros s Hs.
    assert (Hr : 0 <= s <= 32).
    { destruct rotate_amounts_in_range as (H1 & H2 & H3).
      rewrite Forall_forall in H1, H2, H3.
      apply in_app_or in Hs. destruct Hs as [Hs | Hs]; [now apply H1|].
      apply in_app_or in Hs. destruct Hs as [Hs | Hs]; [now apply H2|].
      now apply H3. }
    split; [lia|]. split; [lia|].
    exists (Spec.rotl x s). split; [now apply left_rotate_ok | apply rotl_u32].
  - intros A B C D X. split; [|split].
    + apply round_1_total_or_index_error.
    + apply round_2_total_or_index_error.
    + apply round_3_total_or_index_error.
Qed.

(** The unmasked result of [f] is a word as soon as its last two
    arguments are words, whatever its first argument is. *)
Lemma f_u32_of_choices X Y Z :
  Spec.u32 Y -> Spec.u32 Z -> Spec.u32 (f X Y Z).
Proof.
  intros HY HZ. unfold f. apply lor_u32; apply land_u32; assumption.
Qed.

(** C10, as stated, fails on one point: in an [md4] computation [f] is
    only applied to state words, and on words (already when its last two
    arguments are words) the unmasked result of [f] does not leave
    [0, 2^32). *)
Lemma f_output_never_leaves_range_on_words :
  ~ (exists X Y Z : Z,
       Spec.u32 Y /\ Spec.u32 Z /\ ~ Spec.u32 (f X Y Z)).
Proof.
  intros (X & Y & Z & HY & HZ & H). apply H. now apply f_u32_of_choices.
Qed.

(** C10, amended - Throughout an [md4] computation every value bound to
    A, B, C, D and every entry of [buffers] lies in [0, 2^32): the initial
    constants, the buffers after every pass of the loop, every decoded
    message word, the state after each step of each round.  A step returns
    a word whatever integers it is given (the rotation is masked) and a
    pass of the loop stores only words (the accumulation is masked).  Sums
    of words and the complement [~x] taken inside [f] leave the range; the
    result of [f] itself does not, as soon as its last two arguments are
    reduced to 32 bits. *)
Theorem md4_state_words_stay_32bit (m : list byte) :
  let padded := Spec.pad m in
  let nblocks := (length padded / 64)%nat in
  let state_before n :=
    fold_left Spec.compress (firstn n (Spec.blocks padded))
      Spec.init_state in
  append_length (pad_message m) (Z.of_nat (length m)) = Ok padded
  /\ Forall Spec.u32 [0x67452301; 0xEFCDAB89; 0x98BADCFE; 0x10325476]
  /\ Forall
       (fun n =>
          returns
            (fun bufs =>
               bufs = Spec.buffers_of (state_before n)
               /\ Forall Spec.u32 bufs)
            (Py.for_range n (md4_loop_body padded)
               [0x67452301; 0xEFCDAB89; 0x98BADCFE; 0x10325476]))
       (seq 0 (S nblocks))
  /\ Forall
       (fun n =>
          let X := Spec.decode_words (Spec.block_at padded n) in
          let s0 := state_before n in
          let s1 := Spec.round1 s0 X in
          let s2 := Spec.round2 s1 X in
          (Py.struct_unpack_16I
             (Py.slice padded (n * 4 * block_size_words)
                ((n + 1) * 4 * block_size_words)) = Ok X
           /\ Forall Spec.u32 X)
          /\ (Sched.on_state round_1 s0 X = Ok s1
              /\ Sched.on_state round_2 s1 X = Ok s2)
          /\ Forall (returns Spec.state_u32)
               (Sched.prefix_states operation_round_1 Spec.word_order_1
                  Spec.rotate_amounts_1 s0 X)
          /\ Forall (returns Spec.state_u32)
               (Sched.prefix_states operation_round_2 Spec.word_order_2
                  Spec.rotate_amounts_2 s1 X)
          /\ Forall (returns Spec.state_u32)
               (Sched.prefix_states operation_round_3 Spec.word_order_3
                  Spec.rotate_amounts_3 s2 X))
       (seq 0 nblocks)
  /\ (forall a b c d x s : Z,
        if_returns Spec.u32 (operation_round_1 a b c d x s)
        /\ if_returns Spec.u32 (operation_round_2 a b c d x s)
        /\ if_returns Spec.u32 (operation_round_3 a b c d x s))
  /\ (forall (p : list byte) (buffers : list Z) (i : nat),
        if_returns (Forall Spec.u32) (md4_loop_body p buffers i))
  /\ (exists a x, Spec.u32 a /\ Spec.u32 x /\ ~ Spec.u32 (a + x))
  /\ (exists x, Spec.u32 x /\ ~ Spec.u32 (Z.lnot x))
  /\ (forall X Y Z : Z, Spec.u32 (f X (Y mod 2 ^ 32) (Z mod 2 ^ 32))).
Proof.
  intros padded nblocks state_before.
  split; [apply padder_ok|].
  split; [apply (buffers_of_u32 Spec.init_state), init_state_u32|].
  split; [|split; [|split; [|split; [|split; [|split]]]]].
  - apply Forall_forall. intros n Hn. apply in_seq in Hn.
    apply (md4_loop_prefix_u32 padded n). unfold nblocks in Hn. lia.
  - apply Forall_forall. intros n Hn. apply in_seq in Hn.
    assert (Hn' : (n < length padded / 64)%nat) by (unfold nblocks in Hn; lia).
    assert (H0 : Spec.state_u32 (state_before n))
      by apply fold_compress_u32, init_state_u32.
    cbv zeta. set (X := Spec.decode_words (Spec.block_at padded n)).
    destruct (on_state_round_1 (state_before n) X H0 eq_refl) as [E1 H1].
    destruct (on_state_round_2 _ X H1 eq_refl) as [E2 H2].
    split; [split|split; [split|split; [|split]]].
    + rewrite slice_is_block_at. apply struct_unpack_16I_ok, length_block_at, Hn'.
    + apply decode_words_u32.
    + exact E1.
    + exact E2.
    + rewrite (round_1_prefixes _ X H0 eq_refl).
      apply returns_map_Ok, round_states_u32;
        [intros; apply rotl_u32 | exact H0].
    + rewrite (round_2_prefixes _ X H1 eq_refl).
      apply returns_map_Ok, round_states_u32;
        [intros; apply rotl_u32 | exact H1].
    + rewrite (round_3_prefixes _ X H2 eq_refl).
      apply returns_map_Ok, round_states_u32;
        [intros; apply rotl_u32 | exact H2].
  - intros a b c d x s. split; [|split].
    + destruct (operation_round_1 a b c d x s) as [r|] eqn:E; [|exact I].
      apply (operation_round_1_u32 _ _ _ _ _ _ _ E).
    + destruct (operation_round_2 a b c d x s) as [r|] eqn:E; [|exact I].
      apply (operation_round_2_u32 _ _ _ _ _ _ _ E).
    + destruct (operation_round_3 a b c d x s) as [r|] eqn:E; [|exact I].
      apply (operation_round_3_u32 _ _ _ _ _ _ _ E).
  - apply md4_loop_body_masked.
  - exists 0xFFFFFFFF, 1. unfold Spec.u32. repeat split; lia.
  - exists 0. unfold Spec.u32. cbn. repeat split; lia.
  - intros X Y Z. apply f_u32_of_choices; apply u32_mod.
Qed.

(** * Further properties of the program *)

(** ** The padder *)

(** X1 - [pad_message] keeps the message as a prefix and appends 0x80 and
    then only zero bytes, between 1 and 64 bytes in all; the length of the
    result is 56 modulo 64 (its bit length is 448 modulo 512, as the
    docstring says). *)
Theorem pad_message_shape (m : list byte) :
  exists k : nat,
    pad_message m = m ++ x80 :: repeat x00 k
    /\ (k < 64)%nat
    /\ (length (pad_message m) mod 64 = 56)%nat
    /\ (length (pad_message m) * 8 mod 512 = 448)%nat
    /\ (length m + 1 <= length (pad_message m) <= length m + 64)%nat.
Proof.
  exists (Spec.zero_count (length m)).
  destruct (zero_count_spec (length m)) as [Hlt Hmod].
  assert (Hlen : length (pad_message m)
                 = (length m + 1 + Spec.zero_count (length m))%nat).
  { rewrite pad_message_ok, !length_app, repeat_length. cbn [length]. lia. }
  split; [apply pad_message_ok|]. split; [exact Hlt|].
  rewrite Hlen. split; [exact Hmod|]. split; [|lia].
  pose proof (Nat.div_mod_eq (length m + 1 + Spec.zero_count (length m)) 64)
    as Hd.
  rewrite Hmod in Hd. rewrite Hd.
  replace ((64 * ((length m + 1 + Spec.zero_count (length m)) / 64) + 56) * 8)%nat
    with (448 + ((length m + 1 + Spec.zero_count (length m)) / 64) * 512)%nat
    by lia.
  now rewrite Nat.Div0.mod_add.
Qed.

(** X2 - [append_length] never raises, whatever integer it is given as the
    original length (negative, or of 2^61 bytes and more): it appends
    exactly 8 bytes, the little-endian digits of 8 * length modulo 2^64.
    So two lengths that differ by a multiple of 2^61 append the same
    field. *)
Theorem append_length_any_length (message : list byte) (original_length : Z) :
  returns
    (fun r =>
       exists field,
         r = message ++ field
         /\ length field = 8%nat
         /\ Py.int_from_le_bytes field = (original_length * 8) mod 2 ^ 64)
    (append_length message original_length)
  /\ forall k : Z,
       append_length message (original_length + k * 2 ^ 61)
       = append_length message original_length.
Proof.
  assert (E : forall L,
             append_length message L
             = Ok (message ++ Py.int_to_le_bytes 8 ((L * 8) mod 2 ^ 64))).
  { intros L. unfold append_length, Py.to_bytes_little.
    change (Z.shiftl 1 64 - 1) with (Z.ones 64).
    rewrite Z.land_ones by lia.
    change (256 ^ Z.of_nat 8) with (2 ^ 64).
    pose proof (Z.mod_pos_bound (L * 8) (2 ^ 64) ltac:(lia)) as Hb.
    destruct (Z.ltb_spec (L * 8 mod 2 ^ 64) 0); [lia|].
    destruct (Z.leb_spec (2 ^ 64) (L * 8 mod 2 ^ 64)); [lia|].
    reflexivity. }
  split.
  - rewrite E. eexists. split; [reflexivity|]. eexists.
    split; [reflexivity|]. split; [apply length_int_to_le_bytes|].
    rewrite int_from_to_le_bytes. change (256 ^ Z.of_nat 8) with (2 ^ 64).
    apply Z.mod_mod. lia.
  - intros k. rewrite !E. do 3 f_equal.
    replace ((original_length + k * 2 ^ 61) * 8)
      with (original_length * 8 + k * 2 ^ 64) by lia.
    apply Z.mod_add. lia.
Qed.

Lemma marker_then_zeros_inj (m1 : list byte) : forall m2 k1 k2,
  m1 ++ x80 :: repeat x00 k1 = m2 ++ x80 :: repeat x00 k2 -> m1 = m2.
Proof.
  assert (Hrep : forall k (l r : list byte),
             repeat x00 k = l ++ x80 :: r -> False).
  { intros k l r H.
    assert (Hin : In x80 (repeat x00 k))
      by (rewrite H; apply in_or_app; right; now left).
    apply repeat_spec in Hin. discriminate. }
  induction m1 as [|b m1 IH]; intros [|c m2] k1 k2 H; cbn [app] in H.
  - reflexivity.
  - injection H as Hc H. exfalso. eapply Hrep, H.
  - injection H as Hb H. exfalso. eapply Hrep. symmetry. exact H.
  - injection H as Hb H. subst c. f_equal. eapply IH, H.
Qed.

Lemma app_same_length_tail {A : Type} (l1 : list A) : forall l2 t1 t2,
  length t1 = length t2 -> l1 ++ t1 = l2 ++ t2 -> l1 = l2.
Proof.
  induction l1 as [|a l1 IH]; intros [|b l2] t1 t2 Hlen H; cbn [app] in H.
  - reflexivity.
  - exfalso. apply (f_equal (@length A)) in H.
    cbn [length] in H. rewrite length_app in H. lia.
  - exfalso. apply (f_equal (@length A)) in H.
    cbn [length] in H. rewrite length_app in H. lia.
  - injection H as -> H. f_equal. eapply IH; eassumption.
Qed.

Lemma pad_inj m1 m2 : Spec.pad m1 = Spec.pad m2 -> m1 = m2.
Proof.
  unfold Spec.pad. intros H.
  change (m1 ++ [x80] ++ repeat x00 (Spec.zero_count (length m1))
             ++ Spec.length_field (length m1))
    with (m1 ++ (x80 :: repeat x00 (Spec.zero_count (length m1)))
             ++ Spec.length_field (length m1)) in H.
  change (m2 ++ [x80] ++ repeat x00 (Spec.zero_count (length m2))
             ++ Spec.length_field (length m2))
    with (m2 ++ (x80 :: repeat x00 (Spec.zero_count (length m2)))
             ++ Spec.length_field (length m2)) in H.
  rewrite !app_assoc in H.
  apply app_same_length_tail in H.
  - eapply marker_then_zeros_inj, H.
  - unfold Spec.length_field. now rewrite !length_int_to_le_bytes.
Qed.

(** X3 - The padding is unambiguous: two messages that the padder (as
    [md4] calls it) maps to the same padded message are equal, whatever
    their lengths. *)
Theorem padding_is_injective (m1 m2 : list byte) :
  append_length (pad_message m1) (Z.of_nat (length m1))
  = append_length (pad_message m2) (Z.of_nat (length m2)) ->
  m1 = m2.
Proof.
  rewrite !padder_ok. intros H. injection H as H. now apply pad_inj.
Qed.

Lemma padding_is_injective_witness :
  append_length (pad_message (ascii_bytes "abc")) (Z.of_nat 3)
  = append_length (pad_message (ascii_bytes "abc")) (Z.of_nat 3)
  /\ ascii_bytes "abc" = ascii_bytes "abc".
Proof.
  split; [reflexivity|].
  apply (padding_is_injective (ascii_bytes "abc") (ascii_bytes "abc")).
  reflexivity.
Defined.

(** X4 - The padded message that [md4] hashes has 64 * ((len + 8) / 64 + 1)
    bytes, so the loop makes (len + 8) / 64 + 1 passes: one block up to 55
    bytes of message, two from 56 to 119 bytes, and so on. *)
Theorem padded_length_closed_form (m : list byte) :
  returns
    (fun padded =>
       length padded = (64 * ((length m + 8) / 64 + 1))%nat
       /\ (length padded / (4 * block_size_words)
           = (length m + 8) / 64 + 1)%nat)
    (append_length (pad_message m) (Z.of_nat (length m))).
Proof.
  exists (Spec.pad m). split; [apply padder_ok|].
  change (4 * block_size_words)%nat with 64%nat.
  assert (H : length (Spec.pad m) = (64 * ((length m + 8) / 64 + 1))%nat).
  { rewrite length_pad.
    destruct (zero_count_spec (length m)) as [Hlt Hmod].
    set (k := Spec.zero_count (length m)) in *.
    pose proof (Nat.div_mod_eq (length m + 1 + k) 64) as Hd.
    rewrite Hmod in Hd.
    set (q := ((length m + 1 + k) / 64)%nat) in *.
    assert (Hq : ((length m + 8) / 64 = q)%nat).
    { symmetry. apply (Nat.div_unique _ _ _ (63 - k)%nat); lia. }
    rewrite Hq. lia. }
  split; [exact H|]. rewrite H.
  rewrite Nat.mul_comm. apply Nat.div_mul. lia.
Qed.

(** ** Rotation *)

Lemma rotl_bits x n i :
  Spec.u32 x -> 0 <= n <= 32 -> 0 <= i < 32 ->
  Z.testbit (Spec.rotl x n) i = Z.testbit x ((i - n) mod 32).
Proof.
  intros Hx Hn Hi. unfold Spec.rotl.
  rewrite Z.mod_pow2_bits_low, Z.lor_spec, Z.shiftl_spec, Z.shiftr_spec by lia.
  destruct (Z.lt_ge_cases i n) as [Hlt | Hge].
  - rewrite (Z.testbit_neg_r x (i - n)) by lia. cbn [orb]. f_equal.
    apply (Z.mod_unique _ _ (-1)); lia.
  - rewrite (u32_high_bits x (i + (32 - n))) by (assumption || lia).
    rewrite orb_false_r. f_equal. symmetry. apply Z.mod_small. lia.
Qed.

Lemma u32_eq_of_low_bits x y :
  Spec.u32 x -> Spec.u32 y ->
  (forall i, 0 <= i < 32 -> Z.testbit x i = Z.testbit y i) -> x = y.
Proof.
  intros Hx Hy H. apply Z.bits_inj'. intros i Hi.
  destruct (Z.lt_ge_cases i 32) as [Hlt | Hge].
  - apply H. lia.
  - now rewrite (u32_high_bits x), (u32_high_bits y).
Qed.

Lemma rotl_compose x a b :
  Spec.u32 x -> 0 <= a -> 0 <= b -> a + b <= 32 ->
  Spec.rotl (Spec.rotl x a) b = Spec.rotl x (a + b).
Proof.
  intros Hx Ha Hb Hab.
  apply u32_eq_of_low_bits; try apply rotl_u32. intros i Hi.
  pose proof (Z.mod_pos_bound (i - b) 32 ltac:(lia)) as Hm.
  rewrite (rotl_bits (Spec.rotl x a) b), (rotl_bits x a), (rotl_bits x (a + b))
    by (assumption || apply rotl_u32 || lia).
  f_equal. rewrite Zminus_mod_idemp_l. f_equal. lia.
Qed.

Lemma rotl_full_turn x : Spec.u32 x -> Spec.rotl x 0 = x /\ Spec.rotl x 32 = x.
Proof.
  intros Hx. split; apply u32_eq_of_low_bits; try apply rotl_u32; trivial;
    intros i Hi; rewrite rotl_bits by (assumption || lia); f_equal.
  - rewrite Z.sub_0_r. apply Z.mod_small. lia.
  - symmetry. apply (Z.mod_unique _ _ (-1)); lia.
Qed.

Lemma rotl_back x n :
  Spec.u32 x -> 0 <= n <= 32 -> Spec.rotl (Spec.rotl x n) (32 - n) = x.
Proof.
  intros Hx Hn. rewrite rotl_compose by (assumption || lia).
  replace (n + (32 - n)) with 32 by lia. now apply rotl_full_turn.
Qed.

Lemma rotl_forth x n :
  Spec.u32 x -> 0 <= n <= 32 -> Spec.rotl (Spec.rotl x (32 - n)) n = x.
Proof.
  intros Hx Hn. rewrite rotl_compose by (assumption || lia).
  replace (32 - n + n) with 32 by lia. now apply rotl_full_turn.
Qed.

Lemma rotl_inj x y n :
  Spec.u32 x -> Spec.u32 y -> 0 <= n <= 32 ->
  Spec.rotl x n = Spec.rotl y n -> x = y.
Proof.
  intros Hx Hy Hn H.
  rewrite <- (rotl_back x n), <- (rotl_back y n) by assumption.
  now rewrite H.
Qed.

(** X5 - The shift count of [left_rotate X N], for any integer X: a
    negative N raises [ValueError]; every N from 0 to 32 returns a value
    in [0, 2^32), also when X is not a 32-bit word; with N above 32 the call
    never returns a value. *)
Theorem left_rotate_shift_count_domain (X N : Z) :
  if N <? 0 then left_rotate X N = Raise ValueError
  else if N <=? 32 then returns Spec.u32 (left_rotate X N)
  else forall r, left_rotate X N <> Ok r.
Proof.
  destruct (Z.ltb_spec N 0) as [Hneg | Hpos].
  - apply left_rotate_raises. now left.
  - destruct (Z.leb_spec N 32) as [Hsmall | Hbig].
    + rewrite left_rotate_ok by lia. eexists.
      split; [reflexivity | apply rotl_u32].
    + intros r. rewrite left_rotate_raises by lia. discriminate.
Qed.

(** X6 - On a 32-bit word, rotating by a and then by b is rotating by
    a + b, as long as a + b does not exceed 32. *)
Theorem left_rotate_composes (x a b : Z) :
  Spec.u32 x -> 0 <= a -> 0 <= b -> a + b <= 32 ->
  (r <- left_rotate x a ;; left_rotate r b) = left_rotate x (a + b).
Proof.
  intros Hx Ha Hb Hab. rewrite !left_rotate_ok by lia. cbn [bind].
  rewrite left_rotate_ok by lia. now rewrite rotl_compose.
Qed.

Lemma left_rotate_composes_witness :
  (Spec.u32 0x80000001 /\ 0 <= 3 /\ 0 <= 7 /\ 3 + 7 <= 32)
  /\ (r <- left_rotate 0x80000001 3 ;; left_rotate r 7)
     = left_rotate 0x80000001 (3 + 7).
Proof.
  split.
  - unfold Spec.u32. lia.
  - apply (left_rotate_composes 0x80000001 3 7); unfold Spec.u32; lia.
Defined.

(** X7 - On a 32-bit word, rotating by n and then by 32 - n gives the word
    back, rotating by 0 or by 32 changes nothing, and rotation by a given
    n never maps two different words to the same result. *)
Theorem left_rotate_round_trip (x n : Z) :
  Spec.u32 x -> 0 <= n <= 32 ->
  (r <- left_rotate x n ;; left_rotate r (32 - n)) = Ok x
  /\ left_rotate x 0 = Ok x
  /\ left_rotate x 32 = Ok x
  /\ forall y, Spec.u32 y -> left_rotate y n = left_rotate x n -> y = x.
Proof.
  intros Hx Hn. destruct (rotl_full_turn x Hx) as [H0 H32].
  rewrite !left_rotate_ok by lia. cbn [bind].
  rewrite left_rotate_ok by lia. rewrite rotl_back, H0, H32 by assumption.
  repeat split. intros y Hy H. rewrite left_rotate_ok in H by lia.
  injection H as H. now apply (rotl_inj y x n).
Qed.

Lemma left_rotate_round_trip_witness :
  (Spec.u32 0x67452301 /\ 0 <= 19 <= 32)
  /\ (r <- left_rotate 0x67452301 19 ;; left_rotate r (32 - 19))
     = Ok 0x67452301.
Proof.
  split.
  - unfold Spec.u32. lia.
  - apply (left_rotate_round_trip 0x67452301 19); unfold Spec.u32; lia.
Defined.

(** ** The mixing functions and the steps on arbitrary integers *)

Ltac by_bits :=
  apply Z.bits_inj'; intros ?i ?Hi;
  rewrite ?Z.lor_spec, ?Z.land_spec, ?Z.lxor_spec, ?Z.lnot_spec,
    ?Z.bits_0, ?Z.bits_m1 by assumption;
  repeat match goal with
    | |- context [Z.testbit ?v ?i] => destruct (Z.testbit v i)
    end;
  reflexivity.

(** X8 - Algebraic laws of [f], [g], [h] on all integers: [f] selects its
    second argument where the first is all ones and its third where it is
    zero, returns y when both choices are y, and swapping the choices is
    complementing the selector; [g] is symmetric and returns x when two
    arguments are x; [h] is symmetric, cancels a repeated argument and is
    undone by applying it again with the same two other arguments. *)
Theorem mixing_functions_laws (x y z : Z) :
  (f x y y = y /\ f 0 y z = z /\ f (-1) y z = y
   /\ f (Z.lnot x) y z = f x z y)
  /\ (g x y z = g y x z /\ g x y z = g x z y /\ g x x z = x)
  /\ (h x y z = h y x z /\ h x y z = h x z y /\ h x x z = z
      /\ h (h x y z) y z = x).
Proof.
  unfold f, g, h. repeat split; by_bits.
Qed.

Lemma low_bits_mod v i :
  0 <= i -> Z.testbit (v mod 2 ^ 32) i = (i <? 32) && Z.testbit v i.
Proof.
  intros Hi. destruct (Z.ltb_spec i 32).
  - now rewrite Z.mod_pow2_bits_low.
  - now rewrite Z.mod_pow2_bits_high by lia.
Qed.

Lemma f_low_bits b c d :
  f b c d mod 2 ^ 32
  = f (b mod 2 ^ 32) (c mod 2 ^ 32) (d mod 2 ^ 32) mod 2 ^ 32.
Proof.
  unfold f. apply Z.bits_inj'. intros i Hi.
  rewrite !low_bits_mod, !Z.lor_spec, !Z.land_spec, !Z.lnot_spec,
    !low_bits_mod by assumption.
  destruct (i <? 32), (Z.testbit b i), (Z.testbit c i), (Z.testbit d i);
    reflexivity.
Qed.

Lemma g_low_bits b c d :
  g b c d mod 2 ^ 32
  = g (b mod 2 ^ 32) (c mod 2 ^ 32) (d mod 2 ^ 32) mod 2 ^ 32.
Proof.
  unfold g. apply Z.bits_inj'. intros i Hi.
  rewrite !low_bits_mod, !Z.lor_spec, !Z.land_spec, !low_bits_mod
    by assumption.
  destruct (i <? 32), (Z.testbit b i), (Z.testbit c i), (Z.testbit d i);
    reflexivity.
Qed.

Lemma h_low_bits b c d :
  h b c d mod 2 ^ 32
  = h (b mod 2 ^ 32) (c mod 2 ^ 32) (d mod 2 ^ 32) mod 2 ^ 32.
Proof.
  unfold h. apply Z.bits_inj'. intros i Hi.
  rewrite !low_bits_mod, !Z.lxor_spec, !low_bits_mod by assumption.
  destruct (i <? 32), (Z.testbit b i), (Z.testbit c i), (Z.testbit d i);
    reflexivity.
Qed.

Lemma add_mod32_congr a a' b b' :
  a mod 2 ^ 32 = a' mod 2 ^ 32 -> b mod 2 ^ 32 = b' mod 2 ^ 32 ->
  (a + b) mod 2 ^ 32 = (a' + b') mod 2 ^ 32.
Proof.
  intros Ha Hb. rewrite (Z.add_mod a), (Z.add_mod a') by lia.
  now rewrite Ha, Hb.
Qed.

Lemma mod32_mod32 a : a mod 2 ^ 32 = (a mod 2 ^ 32) mod 2 ^ 32.
Proof. symmetry. apply Z.mod_mod. lia. Qed.

(** X9 - A step depends on its five integer arguments only through their
    low 32 bits: reducing A, B, C, D and X modulo 2^32 first changes
    nothing, for any integers and any rotate amount (failing ones too). *)
Theorem steps_depend_on_low_32_bits (A B C D X S : Z) :
  let w v := v mod 2 ^ 32 in
  operation_round_1 A B C D X S
  = operation_round_1 (w A) (w B) (w C) (w D) (w X) S
  /\ operation_round_2 A B C D X S
     = operation_round_2 (w A) (w B) (w C) (w D) (w X) S
  /\ operation_round_3 A B C D X S
     = operation_round_3 (w A) (w B) (w C) (w D) (w X) S.
Proof.
  intros w. unfold w, operation_round_1, operation_round_2, operation_round_3.
  rewrite !mask32_is_mod. repeat split; f_equal.
  - rewrite <- f_low_bits.
    repeat apply add_mod32_congr; try apply mod32_mod32; reflexivity.
  - rewrite <- g_low_bits.
    repeat apply add_mod32_congr; try apply mod32_mod32; reflexivity.
  - rewrite <- h_low_bits.
    repeat apply add_mod32_congr; try apply mod32_mod32; reflexivity.
Qed.

Lemma rotated_sum_solves k s t :
  Spec.u32 t -> 0 <= s <= 32 ->
  exists x,
    Spec.u32 x
    /\ left_rotate ((k + x) mod 2 ^ 32) s = Ok t
    /\ forall x', Spec.u32 x' ->
         left_rotate ((k + x') mod 2 ^ 32) s = Ok t -> x' = x.
Proof.
  intros Ht Hs. set (R := Spec.rotl t (32 - s)).
  assert (HR : Spec.u32 R) by apply rotl_u32.
  exists ((R - k) mod 2 ^ 32). split; [apply u32_mod|]. split.
  - rewrite Z.add_mod_idemp_r by lia.
    replace (k + (R - k)) with R by lia.
    rewrite (u32_mod_id R HR), left_rotate_ok by lia.
    unfold R. now rewrite rotl_forth.
  - intros x' Hx' H. rewrite left_rotate_ok in H by lia. injection H as H.
    rewrite <- (rotl_forth t s Ht Hs) in H. fold R in H.
    apply rotl_inj in H; [|apply u32_mod|exact HR|exact Hs].
    rewrite <- H, Zminus_mod_idemp_l.
    replace (k + x' - k) with x' by lia. symmetry. now apply u32_mod_id.
Qed.

(** X10 - Every step can be steered through its message word: for any
    integers a, b, c, d, any rotate amount from 0 to 32 and any 32-bit
    target t there is one and only one 32-bit word x for which the step
    returns t.  This holds for the steps of all three rounds. *)
Theorem step_reaches_any_target_by_message_word (a b c d s t : Z) :
  Spec.u32 t -> 0 <= s <= 32 ->
  (exists x, Spec.u32 x /\ operation_round_1 a b c d x s = Ok t
     /\ forall x', Spec.u32 x' ->
          operation_round_1 a b c d x' s = Ok t -> x' = x)
  /\ (exists x, Spec.u32 x /\ operation_round_2 a b c d x s = Ok t
        /\ forall x', Spec.u32 x' ->
             operation_round_2 a b c d x' s = Ok t -> x' = x)
  /\ (exists x, Spec.u32 x /\ operation_round_3 a b c d x s = Ok t
        /\ forall x', Spec.u32 x' ->
             operation_round_3 a b c d x' s = Ok t -> x' = x).
Proof.
  intros Ht Hs. unfold operation_round_1, operation_round_2, operation_round_3.
  rewrite !mask32_is_mod. split; [|split].
  - destruct (rotated_sum_solves (a + f b c d mod 2 ^ 32) s t Ht Hs)
      as (x & Hx & E & U).
    exists x. split; [exact Hx|]. rewrite !mask32_is_mod. split.
    + rewrite <- E. do 2 f_equal. lia.
    + intros x' Hx' E'. apply U; [exact Hx'|]. rewrite <- E'.
      rewrite mask32_is_mod. do 2 f_equal. lia.
  - destruct (rotated_sum_solves (a + g b c d mod 2 ^ 32 + 0x5A827999) s t
                Ht Hs) as (x & Hx & E & U).
    exists x. split; [exact Hx|]. rewrite !mask32_is_mod. split.
    + rewrite <- E. do 2 f_equal. lia.
    + intros x' Hx' E'. apply U; [exact Hx'|]. rewrite <- E'.
      rewrite mask32_is_mod. do 2 f_equal. lia.
  - destruct (rotated_sum_solves (a + h b c d mod 2 ^ 32 + 0x6ED9EBA1) s t
                Ht Hs) as (x & Hx & E & U).
    exists x. split; [exact Hx|]. rewrite !mask32_is_mod. split.
    + rewrite <- E. do 2 f_equal. lia.
    + intros x' Hx' E'. apply U; [exact Hx'|]. rewrite <- E'.
      rewrite mask32_is_mod. do 2 f_equal. lia.
Qed.

Lemma step_reaches_any_target_by_message_word_witness :
  (Spec.u32 0 /\ 0 <= 3 <= 32)
  /\ exists x, Spec.u32 x
       /\ operation_round_1 0x67452301 0xEFCDAB89 0x98BADCFE 0x10325476 x 3
          = Ok 0.
Proof.
  split.
  - unfold Spec.u32. lia.
  - destruct (step_reaches_any_target_by_message_word
                0x67452301 0xEFCDAB89 0x98BADCFE 0x10325476 3 0)
      as [(x & Hx & E & _) _]; [unfold Spec.u32; lia | lia |].
    exists x. split; [exact Hx | exact E].
Defined.

(** X11 - Every step can be undone: for any integers b, c, d, x, any
    rotate amount from 0 to 32 and any 32-bit result t there is one and
    only one 32-bit value of the recomputed variable a from which the step
    returns t. *)
Theorem step_is_invertible_in_recomputed_word (b c d x s t : Z) :
  Spec.u32 t -> 0 <= s <= 32 ->
  (exists a, Spec.u32 a /\ operation_round_1 a b c d x s = Ok t
     /\ forall a', Spec.u32 a' ->
          operation_round_1 a' b c d x s = Ok t -> a' = a)
  /\ (exists a, Spec.u32 a /\ operation_round_2 a b c d x s = Ok t
        /\ forall a', Spec.u32 a' ->
             operation_round_2 a' b c d x s = Ok t -> a' = a)
  /\ (exists a, Spec.u32 a /\ operation_round_3 a b c d x s = Ok t
        /\ forall a', Spec.u32 a' ->
             operation_round_3 a' b c d x s = Ok t -> a' = a).
Proof.
  intros Ht Hs. unfold operation_round_1, operation_round_2, operation_round_3.
  rewrite !mask32_is_mod. split; [|split].
  - destruct (rotated_sum_solves (f b c d mod 2 ^ 32 + x) s t Ht Hs)
      as (a & Ha & E & U).
    exists a. split; [exact Ha|]. rewrite !mask32_is_mod. split.
    + rewrite <- E. do 2 f_equal. lia.
    + intros a' Ha' E'. apply U; [exact Ha'|]. rewrite <- E'.
      rewrite mask32_is_mod. do 2 f_equal. lia.
  - destruct (rotated_sum_solves (g b c d mod 2 ^ 32 + x + 0x5A827999) s t
                Ht Hs) as (a & Ha & E & U).
    exists a. split; [exact Ha|]. rewrite !mask32_is_mod. split.
    + rewrite <- E. do 2 f_equal. lia.
    + intros a' Ha' E'. apply U; [exact Ha'|]. rewrite <- E'.
      rewrite mask32_is_mod. do 2 f_equal. lia.
  - destruct (rotated_sum_solves (h b c d mod 2 ^ 32 + x + 0x6ED9EBA1) s t
                Ht Hs) as (a & Ha & E & U).
    exists a. split; [exact Ha|]. rewrite !mask32_is_mod. split.
    + rewrite <- E. do 2 f_equal. lia.
    + intros a' Ha' E'. apply U; [exact Ha'|]. rewrite <- E'.
      rewrite mask32_is_mod. do 2 f_equal. lia.
Qed.

Lemma step_is_invertible_in_recomputed_word_witness :
  (Spec.u32 0xFFFFFFFF /\ 0 <= 19 <= 32)
  /\ exists a, Spec.u32 a
       /\ operation_round_3 a 0xEFCDAB89 0x98BADCFE 0x10325476 0x80 19
          = Ok 0xFFFFFFFF.
Proof.
  split.
  - unfold Spec.u32. lia.
  - destruct (step_is_invertible_in_recomputed_word
                0xEFCDAB89 0x98BADCFE 0x10325476 0x80 19 0xFFFFFFFF)
      as (_ & _ & a & Ha & E & _); [unfold Spec.u32; lia | lia |].
    exists a. split; [exact Ha | exact E].
Defined.

(** ** The rounds on arbitrary integers *)

Section RoundOutput.

Variable op : Z -> Z -> Z -> Z -> Z -> Z -> result Z.
Variable order : list nat.
Variable amounts : list Z.
Variable X : list Z.

Hypothesis op_u32 : forall a b c d x s, if_returns Spec.u32 (op a b c d x s).

Lemma sched_run_steps_app steps1 : forall steps2 st,
  Sched.run_steps op order amounts X (steps1 ++ steps2) st
  = (st' <- Sched.run_steps op order amounts X steps1 st ;;
     Sched.run_steps op order amounts X steps2 st').
Proof.
  induction steps1 as [|i steps1 IH]; intros steps2 st.
  - reflexivity.
  - cbn [app Sched.run_steps].
    destruct (Sched.turn op X st i _ _) as [st1|]; cbn [bind].
    + apply IH.
    + reflexivity.
Qed.

Lemma last_four_steps_u32 st :
  if_returns Spec.state_u32
    (Sched.run_steps op order amounts X [12; 13; 14; 15]%nat st).
Proof.
  destruct st as [[[a b] c] d]. cbn.
  repeat match goal with
    | |- context [Py.getitem X ?k] =>
        destruct (Py.getitem X k); cbn; [|exact I]
    | |- context [op ?a ?b ?c ?d ?x ?s] =>
        let H := fresh "Hw" in
        pose proof (op_u32 a b c d x s) as H;
        destruct (op a b c d x s); cbn in H |- *; [|exact I]
    end.
  repeat (split; [assumption|]). assumption.
Qed.

Lemma sched_run_u32 st :
  if_returns Spec.state_u32 (Sched.run op order amounts st X).
Proof.
  unfold Sched.run.
  change (seq 0 16) with (seq 0 12 ++ [12; 13; 14; 15])%nat.
  rewrite sched_run_steps_app.
  destruct (Sched.run_steps op order amounts X (seq 0 12) st) as [st1|];
    cbn [bind].
  - apply last_four_steps_u32.
  - exact I.
Qed.

End RoundOutput.

Lemma operation_round_1_masked a b c d x s :
  if_returns Spec.u32 (operation_round_1 a b c d x s).
Proof.
  destruct (operation_round_1 a b c d x s) as [r|] eqn:E; [|exact I].
  apply (operation_round_1_u32 _ _ _ _ _ _ _ E).
Qed.

Lemma operation_round_2_masked a b c d x s :
  if_returns Spec.u32 (operation_round_2 a b c d x s).
Proof.
  destruct (operation_round_2 a b c d x s) as [r|] eqn:E; [|exact I].
  apply (operation_round_2_u32 _ _ _ _ _ _ _ E).
Qed.

Lemma operation_round_3_masked a b c d x s :
  if_returns Spec.u32 (operation_round_3 a b c d x s).
Proof.
  destruct (operation_round_3 a b c d x s) as [r|] eqn:E; [|exact I].
  apply (operation_round_3_u32 _ _ _ _ _ _ _ E).
Qed.

(** X12 - Whatever integers a round starts from (in [0, 2^32) or not) and
    whatever integers X holds, a round that has 16 entries to read returns
    four values in [0, 2^32): each of A, B, C, D has been recomputed by a
    masked step.  With fewer than 16 entries it raises [IndexError]. *)
Theorem rounds_return_words_on_any_integers (A B C D : Z) (X : list Z) :
  (if (16 <=? length X)%nat
   then returns Spec.state_u32 (round_1 A B C D X)
   else round_1 A B C D X = Raise IndexError)
  /\ (if (16 <=? length X)%nat
      then returns Spec.state_u32 (round_2 A B C D X)
      else round_2 A B C D X = Raise IndexError)
  /\ (if (16 <=? length X)%nat
      then returns Spec.state_u32 (round_3 A B C D X)
      else round_3 A B C D X = Raise IndexError).
Proof.
  pose proof (round_1_total_or_index_error A B C D X) as T1.
  pose proof (round_2_total_or_index_error A B C D X) as T2.
  pose proof (round_3_total_or_index_error A B C D X) as T3.
  pose proof (sched_run_u32 operation_round_1 Spec.word_order_1
                Spec.rotate_amounts_1 X operation_round_1_masked (A, B, C, D))
    as W1.
  pose proof (sched_run_u32 operation_round_2 Spec.word_order_2
                Spec.rotate_amounts_2 X operation_round_2_masked (A, B, C, D))
    as W2.
  pose proof (sched_run_u32 operation_round_3 Spec.word_order_3
                Spec.rotate_amounts_3 X operation_round_3_masked (A, B, C, D))
    as W3.
  rewrite <- round_1_schedule in W1. rewrite <- round_2_schedule in W2.
  rewrite <- round_3_schedule in W3.
  destruct (16 <=? length X)%nat; [|auto].
  destruct T1 as (r1 & E1 & _), T2 as (r2 & E2 & _), T3 as (r3 & E3 & _).
  rewrite E1 in W1 |- *. rewrite E2 in W2 |- *. rewrite E3 in W3 |- *.
  repeat split; eexists; (split; [reflexivity | assumption]).
Qed.

(** ** Extending a hashed message *)

Lemma seq_from_offset k n : seq k n = map (fun j => (k + j)%nat) (seq 0 n).
Proof.
  revert k. induction n as [|n IH]; intros k; cbn [seq map].
  - reflexivity.
  - f_equal; [lia|]. rewrite IH, <- seq_shift, map_map.
    apply map_ext. intros j. lia.
Qed.

Lemma block_at_app_l p r i :
  (64 * (i + 1) <= length p)%nat ->
  Spec.block_at (p ++ r) i = Spec.block_at p i.
Proof.
  intros Hi. unfold Spec.block_at. rewrite skipn_app, firstn_app.
  replace (64 * i - length p)%nat with 0%nat by lia.
  replace (64 - length (skipn (64 * i) p))%nat with 0%nat
    by (rewrite length_skipn; lia).
  cbn [skipn firstn]. apply app_nil_r.
Qed.

Lemma block_at_app_r p r k j :
  length p = (64 * k)%nat ->
  Spec.block_at (p ++ r) (k + j) = Spec.block_at r j.
Proof.
  intros Hp. unfold Spec.block_at. rewrite skipn_app.
  rewrite (skipn_all2 p) by lia. cbn [app]. do 2 f_equal. lia.
Qed.

Lemma blocks_app p r k :
  length p = (64 * k)%nat ->
  Spec.blocks (p ++ r) = Spec.blocks p ++ Spec.blocks r.
Proof.
  intros Hp. unfold Spec.blocks. rewrite length_app, Hp.
  replace (64 * k + length r)%nat with (k * 64 + length r)%nat by lia.
  rewrite Nat.div_add_l by lia.
  replace (64 * k / 64)%nat with k
    by (rewrite Nat.mul_comm; symmetry; apply Nat.div_mul; lia).
  rewrite seq_app, map_app. f_equal.
  - apply map_ext_in. intros i Hi. apply in_seq in Hi.
    apply block_at_app_l. lia.
  - cbn [Nat.add]. rewrite seq_from_offset, map_map.
    apply map_ext. intros j. now apply block_at_app_r.
Qed.

Lemma int_from_le_bytes_4 a :
  Py.int_from_le_bytes
    [Py.byte_of_Z a; Py.byte_of_Z (a / 256); Py.byte_of_Z (a / 256 / 256);
     Py.byte_of_Z (a / 256 / 256 / 256)]
  = a mod 2 ^ 32.
Proof. exact (int_from_to_le_bytes 4 a). Qed.

(** Decoding a digest as four little-endian words gives the final state. *)
Lemma unpack_serialize st :
  Spec.state_u32 st ->
  Py.unpack_words 4 (Spec.serialize st) = Spec.buffers_of st.
Proof.
  destruct st as [[[a b] c] d]. intros (Ha & Hb & Hc & Hd).
  unfold Spec.serialize, Spec.buffers_of.
  cbn [Py.int_to_le_bytes app Py.unpack_words firstn skipn].
  rewrite !int_from_le_bytes_4. now rewrite !u32_mod_id.
Qed.

(** X13 - Length extension.  Write [glue] for a message followed by its
    padding, as [md4] hashes it.  For any suffix, the digest of
    [glue ++ suffix] is obtained from the digest of the message alone:
    decode that digest into four little-endian words, run the loop of
    [md4] from these buffers over the suffix followed by its own padding
    (for the total length), and pack the result.  The message itself is
    not needed, only its digest and its length. *)
Theorem md4_length_extension (m suffix : list byte) :
  let glue := Spec.pad m in
  let total := (length glue + length suffix)%nat in
  let tail :=
    suffix ++ x80 :: repeat x00 (Spec.zero_count total)
      ++ Spec.length_field total in
  append_length (pad_message m) (Z.of_nat (length m)) = Ok glue
  /\ append_length (pad_message (glue ++ suffix))
       (Z.of_nat (length (glue ++ suffix)))
     = Ok (glue ++ tail)
  /\ returns
       (fun digest =>
          md4 (glue ++ suffix)
          = (buffers <-
               Py.for_range (length tail / (4 * block_size_words))
                 (md4_loop_body tail) (Py.unpack_words 4 digest) ;;
             Py.struct_pack_4L buffers))
       (md4 m).
Proof.
  intros glue total tail.
  assert (Hpad : Spec.pad (glue ++ suffix) = glue ++ tail).
  { unfold Spec.pad at 1. rewrite length_app. fold total.
    rewrite <- app_assoc. reflexivity. }
  split; [apply padder_ok|].
  split; [rewrite padder_ok, Hpad; reflexivity|].
  exists (Spec.digest m). split; [apply md4_refines_spec|].
  change (4 * block_size_words)%nat with 64%nat.
  unfold Spec.digest at 1. rewrite unpack_serialize by apply final_state_u32.
  rewrite md4_loop_ok by (apply final_state_u32 || lia). cbn [bind].
  rewrite struct_pack_4L_ok by apply fold_compress_u32, final_state_u32.
  rewrite md4_refines_spec. unfold Spec.digest, Spec.final_state at 1.
  rewrite Hpad.
  assert (Hk : length glue = (64 * (length glue / 64))%nat).
  { pose proof (length_pad_mod_64 m) as H0. fold glue in H0.
    pose proof (Nat.div_mod_eq (length glue) 64). lia. }
  rewrite (blocks_app glue tail _ Hk), fold_left_app. reflexivity.
Qed.

(** ** The hexadecimal digest *)

Lemma hex_digit_inj a b :
  (a < 16)%nat -> (b < 16)%nat -> Py.hex_digit a = Py.hex_digit b -> a = b.
Proof.
  intros Ha Hb H.
  do 16 (destruct a as [|a];
         [do 16 (destruct b as [|b];
                 [reflexivity || (vm_compute in H; discriminate)|]); lia|]).
  lia.
Qed.

Lemma hex_of_byte_inj b1 b2 : Py.hex_of_byte b1 = Py.hex_of_byte b2 -> b1 = b2.
Proof.
  unfold Py.hex_of_byte. cbv zeta.
  pose proof (Byte.to_nat_bounded b1) as B1.
  pose proof (Byte.to_nat_bounded b2) as B2.
  pose proof (Nat.div_mod_eq (Byte.to_nat b1) 16) as D1.
  pose proof (Nat.div_mod_eq (Byte.to_nat b2) 16) as D2.
  pose proof (Nat.mod_upper_bound (Byte.to_nat b1) 16 ltac:(lia)) as M1.
  pose proof (Nat.mod_upper_bound (Byte.to_nat b2) 16 ltac:(lia)) as M2.
  remember (Byte.to_nat b1 / 16)%nat as h1.
  remember (Byte.to_nat b2 / 16)%nat as h2.
  remember (Byte.to_nat b1 mod 16)%nat as l1.
  remember (Byte.to_nat b2 mod 16)%nat as l2.
  intros H. injection H as Hhi Hlo.
  apply hex_digit_inj in Hhi; [|lia|lia].
  apply hex_digit_inj in Hlo; [|lia|lia].
  assert (E : Byte.to_nat b1 = Byte.to_nat b2) by lia.
  pose proof (Byte.of_to_nat b1) as E1. pose proof (Byte.of_to_nat b2) as E2.
  rewrite E in E1. congruence.
Qed.

Lemma string_two_chars_inj c1 c2 s c1' c2' s' :
  String c1 (String c2 s) = String c1' (String c2' s') ->
  c1 = c1' /\ c2 = c2' /\ s = s'.
Proof. intros H. injection H. auto. Qed.

Lemma hex_inj d1 : forall d2, Py.hex d1 = Py.hex d2 -> d1 = d2.
Proof.
  induction d1 as [|b1 d1 IH]; intros [|b2 d2] H.
  - reflexivity.
  - rewrite hex_cons in H. discriminate.
  - rewrite hex_cons in H. discriminate.
  - rewrite !hex_cons in H. apply string_two_chars_inj in H.
    destruct H as (Hhi & Hlo & Hrest). f_equal.
    + apply hex_of_byte_inj. unfold Py.hex_of_byte. cbv zeta.
      now rewrite Hhi, Hlo.
    + now apply IH.
Qed.

(** X14 - The hexadecimal form loses nothing: two messages with the same
    [md4_hex_digest] have the same [md4] digest bytes. *)
Theorem hex_digest_determines_digest (m1 m2 : list byte) :
  md4_hex_digest m1 = md4_hex_digest m2 -> md4 m1 = md4 m2.
Proof.
  rewrite !md4_hex_digest_ok, !md4_refines_spec. intros H.
  injection H as H. f_equal. now apply hex_inj.
Qed.

Lemma hex_digest_determines_digest_witness :
  md4_hex_digest (ascii_bytes "abc") = md4_hex_digest (ascii_bytes "abc")
  /\ md4 (ascii_bytes "abc") = md4 (ascii_bytes "abc").
Proof.
  split; [reflexivity|].
  apply (hex_digest_determines_digest (ascii_bytes "abc") (ascii_bytes "abc")).
  reflexivity.
Defined.

(** ** A round loses no information *)

Section RoundInjective.

Variable op : Z -> Z -> Z -> Z -> Z -> Z -> result Z.
Variable order : list nat.
Variable amounts : list Z.
Variable X : list Z.

Hypothesis op_u32 : forall a b c d x s, if_returns Spec.u32 (op a b c d x s).

Hypothesis op_inj : forall a a' b c d x i t,
  Spec.u32 a -> Spec.u32 a' ->
  op a b c d x (Spec.rotate_amount amounts i) = Ok t ->
  op a' b c d x (Spec.rotate_amount amounts i) = Ok t ->
  a = a'.

Lemma sched_turn_keeps_u32 st i k s r :
  Spec.state_u32 st -> Sched.turn op X st i k s = Ok r -> Spec.state_u32 r.
Proof.
  destruct st as [[[a b] c] d]. intros (Ha & Hb & Hc & Hd).
  unfold Sched.turn. destruct (Py.getitem X k) as [x|]; [|discriminate].
  cbn [bind].
  destruct (i mod 4)%nat as [|[|[|?]]];
    match goal with
    | |- context [op ?a ?b ?c ?d ?x ?s] =>
        pose proof (op_u32 a b c d x s) as Hw;
        destruct (op a b c d x s) as [v|]; [|discriminate]
    end;
    cbn [bind if_returns] in *; intros E; injection E as <-;
    repeat (split; [assumption|]); assumption.
Qed.

Lemma sched_turn_inj st st' i r :
  Spec.state_u32 st -> Spec.state_u32 st' ->
  Sched.turn op X st i (Spec.word_index order i)
    (Spec.rotate_amount amounts i) = Ok r ->
  Sched.turn op X st' i (Spec.word_index order i)
    (Spec.rotate_amount amounts i) = Ok r ->
  st = st'.
Proof.
  destruct st as [[[a b] c] d], st' as [[[a' b'] c'] d'].
  intros (Ha & Hb & Hc & Hd) (Ha' & Hb' & Hc' & Hd').
  unfold Sched.turn.
  destruct (Py.getitem X (Spec.word_index order i)) as [x|]; [|discriminate].
  cbn [bind].
  destruct (i mod 4)%nat as [|[|[|?]]].
  - destruct (op a b c d x _) as [v|] eqn:E; [|discriminate].
    destruct (op a' b' c' d' x _) as [v'|] eqn:E'; [|discriminate].
    cbn [bind]. intros H H'. injection H as <-. injection H' as Hv -> -> ->.
    subst v'. f_equal. f_equal. f_equal.
    apply (op_inj a a' b c d x i v); assumption.
  - destruct (op d a b c x _) as [v|] eqn:E; [|discriminate].
    destruct (op d' a' b' c' x _) as [v'|] eqn:E'; [|discriminate].
    cbn [bind]. intros H H'. injection H as <-. injection H' as -> -> -> Hv.
    subst v'. f_equal.
    apply (op_inj d d' a b c x i v); assumption.
  - destruct (op c d a b x _) as [v|] eqn:E; [|discriminate].
    destruct (op c' d' a' b' x _) as [v'|] eqn:E'; [|discriminate].
    cbn [bind]. intros H H'. injection H as <-. injection H' as -> -> Hv ->.
    subst v'. f_equal. f_equal.
    apply (op_inj c c' d a b x i v); assumption.
  - destruct (op b c d a x _) as [v|] eqn:E; [|discriminate].
    destruct (op b' c' d' a' x _) as [v'|] eqn:E'; [|discriminate].
    cbn [bind]. intros H H'. injection H as <-. injection H' as -> Hv -> ->.
    subst v'. f_equal. f_equal. f_equal.
    apply (op_inj b b' c d a x i v); assumption.
Qed.

Lemma sched_run_steps_inj steps : forall st st' r,
  Spec.state_u32 st -> Spec.state_u32 st' ->
  Sched.run_steps op order amounts X steps st = Ok r ->
  Sched.run_steps op order amounts X steps st' = Ok r ->
  st = st'.
Proof.
  induction steps as [|i steps IH]; intros st st' r Hst Hst' H H'.
  - cbn in H, H'. congruence.
  - cbn [Sched.run_steps] in H, H'.
    destruct (Sched.turn op X st i _ _) as [st1|] eqn:E; [|discriminate].
    destruct (Sched.turn op X st' i _ _) as [st1'|] eqn:E'; [|discriminate].
    cbn [bind] in H, H'.
    assert (H1 : Spec.state_u32 st1)
      by (eapply sched_turn_keeps_u32; [exact Hst | exact E]).
    assert (H1' : Spec.state_u32 st1')
      by (eapply sched_turn_keeps_u32; [exact Hst' | exact E']).
    assert (st1 = st1') by (apply (IH st1 st1' r H1 H1' H H')).
    subst st1'. apply (sched_turn_inj st st' i st1 Hst Hst' E E').
Qed.

End RoundInjective.

Lemma operation_round_1_inj a a' b c d x i t :
  Spec.u32 a -> Spec.u32 a' ->
  operation_round_1 a b c d x (Spec.rotate_amount Spec.rotate_amounts_1 i)
  = Ok t ->
  operation_round_1 a' b c d x (Spec.rotate_amount Spec.rotate_amounts_1 i)
  = Ok t ->
  a = a'.
Proof.
  intros Ha Ha' E E'.
  pose proof (rotate_amount_bounds Spec.rotate_amounts_1 i
                (proj1 rotate_amounts_in_range)) as Hs.
  pose proof (operation_round_1_u32 _ _ _ _ _ _ _ E) as Ht.
  destruct (rotated_sum_solves (f b c d mod 2 ^ 32 + x) _ t Ht Hs)
    as (a0 & _ & _ & U).
  unfold operation_round_1 in E, E'. rewrite !mask32_is_mod in E, E'.
  transitivity a0; [|symmetry]; apply U; trivial.
  - rewrite <- E. do 2 f_equal. lia.
  - rewrite <- E'. do 2 f_equal. lia.
Qed.

Lemma operation_round_2_inj a a' b c d x i t :
  Spec.u32 a -> Spec.u32 a' ->
  operation_round_2 a b c d x (Spec.rotate_amount Spec.rotate_amounts_2 i)
  = Ok t ->
  operation_round_2 a' b c d x (Spec.rotate_amount Spec.rotate_amounts_2 i)
  = Ok t ->
  a = a'.
Proof.
  intros Ha Ha' E E'.
  pose proof (rotate_amount_bounds Spec.rotate_amounts_2 i
                (proj1 (proj2 rotate_amounts_in_range))) as Hs.
  pose proof (operation_round_2_u32 _ _ _ _ _ _ _ E) as Ht.
  destruct (rotated_sum_solves (g b c d mod 2 ^ 32 + x + 0x5A827999) _ t
              Ht Hs) as (a0 & _ & _ & U).
  unfold operation_round_2 in E, E'. rewrite !mask32_is_mod in E, E'.
  transitivity a0; [|symmetry]; apply U; trivial.
  - rewrite <- E. do 2 f_equal. lia.
  - rewrite <- E'. do 2 f_equal. lia.
Qed.

Lemma operation_round_3_inj a a' b c d x i t :
  Spec.u32 a -> Spec.u32 a' ->
  operation_round_3 a b c d x (Spec.rotate_amount Spec.rotate_amounts_3 i)
  = Ok t ->
  operation_round_3 a' b c d x (Spec.rotate_amount Spec.rotate_amounts_3 i)
  = Ok t ->
  a = a'.
Proof.
  intros Ha Ha' E E'.
  pose proof (rotate_amount_bounds Spec.rotate_amounts_3 i
                (proj2 (proj2 rotate_amounts_in_range))) as Hs.
  pose proof (operation_round_3_u32 _ _ _ _ _ _ _ E) as Ht.
  destruct (rotated_sum_solves (h b c d mod 2 ^ 32 + x + 0x6ED9EBA1) _ t
              Ht Hs) as (a0 & _ & _ & U).
  unfold operation_round_3 in E, E'. rewrite !mask32_is_mod in E, E'.
  transitivity a0; [|symmetry]; apply U; trivial.
  - rewrite <- E. do 2 f_equal. lia.
  - rewrite <- E'. do 2 f_equal. lia.
Qed.

(** X16 - For a fixed block X of at least 16 entries, each round is
    one-to-one on states of 32-bit words: two different entering states
    never give the same result.  (What makes a pass of the loop lose
    information is only the addition of the entering state afterwards.) *)
Theorem rounds_are_injective (st st' : Spec.state) (X : list Z) :
  Spec.state_u32 st -> Spec.state_u32 st' -> (16 <= length X)%nat ->
  (Sched.on_state round_1 st X = Sched.on_state round_1 st' X -> st = st')
  /\ (Sched.on_state round_2 st X = Sched.on_state round_2 st' X
      -> st = st')
  /\ (Sched.on_state round_3 st X = Sched.on_state round_3 st' X
      -> st = st').
Proof.
  intros Hst Hst' HX.
  destruct st as [[[a b] c] d] eqn:Est, st' as [[[a' b'] c'] d'] eqn:Est'.
  unfold Sched.on_state.
  pose proof (round_1_total_or_index_error a b c d X) as T1.
  pose proof (round_2_total_or_index_error a b c d X) as T2.
  pose proof (round_3_total_or_index_error a b c d X) as T3.
  destruct (Nat.leb_spec 16 (length X)) as [_|]; [|lia].
  destruct T1 as (r1 & E1 & _), T2 as (r2 & E2 & _), T3 as (r3 & E3 & _).
  split; [|split]; intros H.
  - rewrite E1 in H. symmetry in H.
    rewrite round_1_schedule in E1, H.
    eapply (sched_run_steps_inj operation_round_1 Spec.word_order_1
              Spec.rotate_amounts_1 X operation_round_1_masked
              operation_round_1_inj (seq 0 16)); eassumption.
  - rewrite E2 in H. symmetry in H.
    rewrite round_2_schedule in E2, H.
    eapply (sched_run_steps_inj operation_round_2 Spec.word_order_2
              Spec.rotate_amounts_2 X operation_round_2_masked
              operation_round_2_inj (seq 0 16)); eassumption.
  - rewrite E3 in H. symmetry in H.
    rewrite round_3_schedule in E3, H.
    eapply (sched_run_steps_inj operation_round_3 Spec.word_order_3
              Spec.rotate_amounts_3 X operation_round_3_masked
              operation_round_3_inj (seq 0 16)); eassumption.
Qed.

Lemma rounds_are_injective_witness :
  (Spec.state_u32 Spec.init_state /\ Spec.state_u32 Spec.init_state
   /\ (16 <= length (repeat 0 16))%nat)
  /\ (Sched.on_state round_1 Spec.init_state (repeat 0 16)
      = Sched.on_state round_1 Spec.init_state (repeat 0 16)
      -> Spec.init_state = Spec.init_state).
Proof.
  split.
  - split; [apply init_state_u32|]. split; [apply init_state_u32|].
    cbn. lia.
  - destruct (rounds_are_injective Spec.init_state Spec.init_state
                (repeat 0 16)) as [H _];
      [apply init_state_u32 | apply init_state_u32 | cbn; lia | exact H].
Defined.
